(** * Betweenness centrality (src/metrics/centrality/betweenness.js)

    A shallow embedding of the node and edge betweenness accumulators of
    graphology, and the properties of their accumulation, rescaling,
    option resolution and validation phases.

    JavaScript numbers are IEEE-754 binary64 values: they are modelled by
    Rocq's primitive floats, so every sum, product and quotient below is the
    very operation the engine performs.  A plain object used as a dictionary
    is the [gmap] of its own properties, written through [Obj.set]: the
    property [__proto__] is an accessor of [Object.prototype] and a write to
    it stores nothing.  Typed arrays are lists with stdpp's lookup and
    insert, whose out-of-range behaviour is the one of typed arrays.  Thrown
    errors are the [Throw] completions of a small error monad; the state a
    call leaves the graph in is returned with the completion. *)

From Stdlib Require Import PrimFloat Uint63 FloatAxioms.
From stdpp Require Import gmap strings list fin_maps.

Set Default Proof Using "Type".

(* ================================================================== *)
(** * JavaScript values, completions and numbers                        *)
(* ================================================================== *)

(** The values an option can hold: the documented ones (attribute names,
    booleans, getter functions, identified by their source text) and the two
    empty values. *)
Inductive value : Type :=
  | VUndefined
  | VNull
  | VBool (b : bool)
  | VStr (s : string)
  | VFun (code : string).

#[global] Instance value_eq_dec : EqDecision value.
Proof. solve_decision. Defined.

(** ToBoolean: what [cond ? a : b] and [if (cond)] test. *)
Definition truthy (v : value) : bool :=
  match v with
  | VUndefined | VNull => false
  | VBool b => b
  | VStr s => negb (String.eqb s EmptyString)
  | VFun _ => true
  end.

(** ToPropertyKey, for [attr[outputName]]. *)
Definition to_property_key (v : value) : string :=
  match v with
  | VUndefined => "undefined"
  | VNull => "null"
  | VBool true => "true"
  | VBool false => "false"
  | VStr s => s
  | VFun code => code
  end.

(** The errors thrown: the engine's [TypeError], the [Error] of the source
    with its message, and the two error classes of graphology that
    [graph.edge] throws. *)
Inductive error : Type :=
  | TypeError
  | Error (message : string)
  | UsageGraphError
  | NotFoundGraphError.

(** A completion: a normal result or a thrown error. *)
Inductive result (A : Type) : Type :=
  | Ok (a : A)
  | Throw (e : error).
Arguments Ok {A} a.
Arguments Throw {A} e.

#[global] Instance error_eq_dec : EqDecision error.
Proof. solve_decision. Defined.

#[global] Instance result_eq_dec {A : Type} `{EqDecision A} :
  EqDecision (result A).
Proof. solve_decision. Defined.

#[global] Instance result_ret : MRet result := λ A a, Ok a.
#[global] Instance result_bind : MBind result := λ A B f m,
  match m with
  | Ok a => f a
  | Throw e => Throw e
  end.
#[global] Instance result_fmap : FMap result := λ A B f m,
  match m with
  | Ok a => Ok (f a)
  | Throw e => Throw e
  end.

(** An object read at a property it lacks gives [undefined]; as an operand of
    [+], [*] or [/] that is NaN. *)
Definition to_number (x : option float) : float := default PrimFloat.nan x.

(** What the assign variants store under an attribute: a number,
    [undefined], or the object [Object.prototype] (what a plain object gives
    when read at [__proto__]). *)
Inductive attribute : Type :=
  | AUndefined
  | ANumber (x : float)
  | AObjectPrototype.

(** An array element or own property, missing or not, as a value. *)
Definition of_number (x : option float) : attribute :=
  match x with
  | Some x => ANumber x
  | None => AUndefined
  end.

(** A count ([graph.order]) as a number. *)
Definition number_of_nat (n : nat) : float :=
  PrimFloat.of_uint63 (Uint63.of_Z (Z.of_nat n)).

(* ================================================================== *)
(** * Typed arrays and plain objects                                    *)
(* ================================================================== *)

Module Float64Array.
(** [new Float64Array(n)]: [n] zeroes. *)
Definition make (n : nat) : list float := replicate n 0%float.

(** [a[i]] as an operand of arithmetic. *)
Definition get (a : list float) (i : nat) : float := to_number (a !! i).

(** [a[i] = x]: a write past the end of a typed array is dropped. *)
Definition set (a : list float) (i : nat) (x : float) : list float :=
  <[i := x]> a.

(** [a[i] += x]. *)
Definition add (a : list float) (i : nat) (x : float) : list float :=
  set a i (get a i + x)%float.

(** [a[i] *= x]. *)
Definition mul (a : list float) (i : nat) (x : float) : list float :=
  set a i (get a i * x)%float.
End Float64Array.

Module Obj.
(** The property names a plain object inherits from [Object.prototype]:
    [__proto__] is an accessor, the others hold functions. *)
Definition inherited : list string :=
  ["__proto__"; "constructor"; "hasOwnProperty"; "isPrototypeOf";
   "propertyIsEnumerable"; "toLocaleString"; "toString"; "valueOf";
   "__defineGetter__"; "__defineSetter__"; "__lookupGetter__";
   "__lookupSetter__"].

(** [o[k] = x] on a plain object, for the values stored here (numbers,
    [undefined], [Object.prototype]): the property becomes an own property
    with that value, except [__proto__], whose setter ignores a value that is
    no object and leaves the own properties alone when given the prototype
    the object already has. *)
Definition set {A : Type} (o : gmap string A) (k : string) (x : A)
  : gmap string A :=
  if decide (k = "__proto__") then o else <[k := x]> o.

(** [o[k]] as an operand of arithmetic, on an object with numeric values: an
    own property gives its number, a property the object does not have gives
    [undefined], that is NaN.  (One of the [inherited] names that is no own
    property reads as a function instead: the statements on the credits take
    their keys [numeric].) *)
Definition get (o : gmap string float) (k : string) : float :=
  to_number (o !! k).

(** [o[k] += x].  Under [__proto__] nothing is stored, whatever is read. *)
Definition add (o : gmap string float) (k : string) (x : float)
  : gmap string float :=
  set o k (get o k + x)%float.

(** [o[k] *= x]. *)
Definition mul (o : gmap string float) (k : string) (x : float)
  : gmap string float :=
  set o k (get o k * x)%float.

(** [o[k]] as a value to store: [Object.prototype] at [__proto__], else the
    own property. *)
Definition read (o : gmap string float) (k : string) : attribute :=
  if decide (k = "__proto__") then AObjectPrototype else of_number (o !! k).

(** [o[k] += x] adds to a number, or to [undefined]: [k] is not
    [__proto__], and is an own property of [o] or not inherited at all. *)
Definition numeric (o : gmap string float) (k : string) : Prop :=
  k ≠ "__proto__" ∧ (is_Some (o !! k) ∨ k ∉ inherited).

(** A key, or [undefined], converted to a string (a property name, a node
    key). *)
Definition key (e : option string) : string := default "undefined" e.
End Obj.

(* ================================================================== *)
(** * The collaborators: stack, traversal result, graph, indexer       *)
(* ================================================================== *)

(** Modelled from the spec: the stack [S] of a traversal result, "a sequence
    of node indices ... consumable as a stack (pop from the end first)".  The
    source reads its fields [size] and [items] and calls [pop]; the class
    itself is not under src/.  The stack holds [items[0 .. size-1]], [items]
    may be longer (a buffer of fixed capacity), and [pop] on a stack of size
    [n + 1] leaves size [n] and returns [items[n]]. *)
Record FixedStack : Type := { items : list nat; size : nat }.

(** What [brandes(i)] returns: [result[0]], [result[1]], [result[2]]. *)
Record Traversal : Type := {
  tS : FixedStack;
  tP : list (list nat);
  tsigma : list float
}.

Inductive GraphType : Type := directed | undirected | mixed.

#[global] Instance GraphType_eq_dec : EqDecision GraphType.
Proof. solve_decision. Defined.

(** Attribute stores: element key, then attribute name. *)
Abbreviation attributes := (gmap string (gmap string attribute)).

(** The graph handle, by the capabilities the source uses: [order], [type],
    [forEachEdge], [edge(u, v)] and the attribute stores the assign variants
    write to.  [multi] tells a multigraph; [adjacency u v] is the key of the
    edge the graph holds from [u] to [v] (for an undirected edge, between
    them), if it holds one. *)
Record Graph : Type := {
  nodes : list string;
  type : GraphType;
  multi : bool;
  edges : list string;
  adjacency : string → string → option string;
  node_attributes : attributes;
  edge_attributes : attributes
}.

Definition order (graph : Graph) : nat := length (nodes graph).

(** Modelled from the spec: [graph.edge(source, target)] of graphology (not
    under src/), "an edge-lookup operation [edge(u, v)] returning the edge
    between ordered pair [(u, v)] or absent".  The method throws on a
    multigraph, and when the graph does not have one of the two nodes. *)
Definition edge (graph : Graph) (source target : string)
  : result (option string) :=
  if multi graph then Throw UsageGraphError
  else if decide (source ∈ nodes graph ∧ target ∈ nodes graph)
  then Ok (adjacency graph source target)
  else Throw NotFoundGraphError.

(** The function [brandes] with its [index]: calling it may throw (a missing
    weight attribute), [index.nodes] maps indices back to node keys. *)
Record Indexer : Type := {
  run : nat → result Traversal;
  index_nodes : list string
}.

(** The two factories of graphology-shortest-path/indexed-brandes. *)
Record IndexedBrandes : Type := {
  createUnweightedIndexedBrandes : Graph → result Indexer;
  createDijkstraIndexedBrandes : Graph → value → result Indexer
}.

(** The first argument of the exported functions: any value at all. *)
Inductive input : Type :=
  | NotAGraph (v : value)
  | AGraph (graph : Graph).

(** Modelled from the spec: [isGraph] of graphology-utils (not under src/),
    "validate that the input is a well-formed graph handle". *)
Definition isGraph (x : input) : bool :=
  match x with
  | NotAGraph _ => false
  | AGraph _ => true
  end.

(* ================================================================== *)
(** * Options                                                           *)
(* ================================================================== *)

Definition DEFAULTS_NODE : gmap string value :=
  <["nodeCentralityAttribute" := VStr "nodeBetweennessCentrality"]>
  (<["getEdgeWeight" := VStr "weight"]>
  (<["normalized" := VBool true]> ∅)).

Definition DEFAULTS_EDGE : gmap string value :=
  <["edgeCentralityAttribute" := VStr "edgeBetweennessCentrality"]>
  (<["getEdgeWeight" := VStr "weight"]>
  (<["normalized" := VBool true]> ∅)).

(** [o.k]: a missing property reads as [undefined]. *)
Definition prop (o : gmap string value) (k : string) : value :=
  default VUndefined (o !! k).

(** [existing === undefined ? def : existing] *)
Definition or_default (existing def : value) : value :=
  match existing with
  | VUndefined => def
  | _ => existing
  end.

(** Modelled from the spec: [resolveDefaults] of graphology-utils (not under
    src/), the "options-with-defaults pattern": the result has the keys of
    the defaults, and each takes the caller's value unless that is
    [undefined].  An omitted [options] argument stands for the empty
    object. *)
Definition resolveDefaults (target : option (gmap string value))
    (defaults : gmap string value) : gmap string value :=
  let target := default ∅ target in
  map_imap (λ k def, Some (or_default (prop target k) def)) defaults.

(** What the caller supplied under the key [k]. *)
Definition supplied (options : option (gmap string value)) (k : string)
  : value :=
  prop (default ∅ options) k.

(** The indexer variant chosen at call setup. *)
Inductive Strategy : Type :=
  | Unweighted
  | Dijkstra (getEdgeWeight : value).

(** [options.getEdgeWeight ? createDijkstraIndexedBrandes(graph,
    options.getEdgeWeight) : createUnweightedIndexedBrandes(graph)] *)
Definition strategy (options : gmap string value) : Strategy :=
  if truthy (prop options "getEdgeWeight")
  then Dijkstra (prop options "getEdgeWeight")
  else Unweighted.

Definition create (lib : IndexedBrandes) (graph : Graph) (s : Strategy)
  : result Indexer :=
  match s with
  | Dijkstra w => createDijkstraIndexedBrandes lib graph w
  | Unweighted => createUnweightedIndexedBrandes lib graph
  end.

(* ================================================================== *)
(** * Steps shared by the two accumulators                              *)
(* ================================================================== *)

(** [j = S.size; while (j--) delta[S.items[S.size - j]] = 0;]
    The test [j--] yields the old [j]; the body runs with [j] already
    decremented.  [delta[undefined] = 0] touches no element. *)
Fixpoint reset_loop (stack : FixedStack) (j : nat) (delta : list float)
  : list float :=
  match j with
  | 0 => delta
  | S j' =>
      reset_loop stack j'
        match items stack !! (size stack - j') with
        | Some k => Float64Array.set delta k 0
        | None => delta
        end
  end.

Definition reset_delta (stack : FixedStack) (delta : list float) : list float :=
  reset_loop stack (size stack) delta.

(** [coefficient = (1 + delta[w]) / sigma[w]] *)
Definition coefficient_of (delta sigma : list float) (w : nat) : float :=
  ((1 + Float64Array.get delta w) / Float64Array.get sigma w)%float.

(* ================================================================== *)
(** * Node betweenness: [abstractBetweennessCentrality]                 *)
(* ================================================================== *)

(** The body of the loop over predecessors: [delta[v] += sigma[v] *
    coefficient]. *)
Definition node_body (sigma : list float) (coefficient : float) (v : nat)
    (delta : list float) : list float :=
  Float64Array.add delta v (Float64Array.get sigma v * coefficient)%float.

(** [for (j = 0, m = P[w].length; j < m; j++) { v = P[w][j]; ... }] with
    [n = m - j] rounds to go.  [P[w][j]] is never missing there. *)
Fixpoint node_predecessors (n j : nat) (Pw : list nat) (sigma : list float)
    (coefficient : float) (delta : list float) : list float :=
  match n with
  | 0 => delta
  | S n' =>
      node_predecessors n' (S j) Pw sigma coefficient
        match Pw !! j with
        | Some v => node_body sigma coefficient v delta
        | None => delta
        end
  end.

(** [while (S.size !== 0) { w = S.pop(); ... }] by recursion on [S.size]:
    [pop] decrements the size and reads the item under it.  A popped
    [undefined], or an index [P] lacks, makes [P[w].length] throw. *)
Fixpoint node_accumulate (size : nat) (items : list nat) (P : list (list nat))
    (sigma : list float) (i : nat) (delta centralities : list float)
  : result (list float * list float) :=
  match size with
  | 0 => Ok (delta, centralities)
  | S size' =>
      match items !! size' with
      | None => Throw TypeError
      | Some w =>
          let coefficient := coefficient_of delta sigma w in
          match P !! w with
          | None => Throw TypeError
          | Some Pw =>
              let delta :=
                node_predecessors (length Pw) 0 Pw sigma coefficient delta in
              let centralities :=
                if decide (w = i) then centralities
                else Float64Array.add centralities w (Float64Array.get delta w) in
              node_accumulate size' items P sigma i delta centralities
          end
      end
  end.

(** One round of the loop over the sources. *)
Definition node_source (brandes : Indexer) (i : nat)
    (state : list float * list float) : result (list float * list float) :=
  t ← run brandes i;
  let delta := reset_delta (tS t) state.1 in
  node_accumulate (size (tS t)) (items (tS t)) (tP t) (tsigma t) i
    delta state.2.

(** [for (i = 0; i < N; i++) { ... }] with [n = N - i] rounds to go. *)
Fixpoint node_sources (n i : nat) (brandes : Indexer)
    (state : list float * list float) : result (list float * list float) :=
  match n with
  | 0 => Ok state
  | S n' =>
      state' ← node_source brandes i state;
      node_sources n' (S i) brandes state'
  end.

(** [if (normalized) scale = N <= 2 ? null : 1 / ((N - 1) * (N - 2));
     else scale = graph.type === 'undirected' ? 0.5 : null;] *)
Definition node_scale (normalized : value) (N : nat) (ty : GraphType)
  : option float :=
  if truthy normalized then
    if Nat.leb N 2 then None
    else Some (1 / ((number_of_nat N - 1) * (number_of_nat N - 2)))%float
  else
    match ty with
    | undirected => Some 0.5%float
    | _ => None
    end.

(** [for (i = 0; i < N; i++) centralities[i] *= scale;] *)
Fixpoint scale_loop (n i : nat) (scale : float) (centralities : list float)
  : list float :=
  match n with
  | 0 => centralities
  | S n' => scale_loop n' (S i) scale (Float64Array.mul centralities i scale)
  end.

Definition node_rescale (normalized : value) (N : nat) (ty : GraphType)
    (centralities : list float) : list float :=
  match node_scale normalized N ty with
  | None => centralities
  | Some scale => scale_loop N 0 scale centralities
  end.

(** Modelled from the spec: [index.collect] (not under src/), "a mapping from
    original node identifier to its computed centrality (identifiers restored
    via the graph's own index-to-identifier resolution)"; the mapping is a
    plain object. *)
Definition index_collect (brandes : Indexer) (results : list float)
  : gmap string float :=
  foldl (λ o p, Obj.set o p.1 p.2) ∅ (zip (index_nodes brandes) results).

Definition set_attribute (store : attributes) (element name : string)
    (x : attribute) : attributes :=
  <[element := Obj.set (default ∅ (store !! element)) name x]> store.

(** Modelled from the spec: [index.assign] (not under src/), "write the
    computed value into each node's ... attribute store under the configured
    attribute name, mutating the graph in place". *)
Definition index_assign (name : string) (results : list float) (graph : Graph)
  : Graph :=
  {| nodes := nodes graph;
     type := type graph;
     multi := multi graph;
     edges := edges graph;
     adjacency := adjacency graph;
     node_attributes :=
       foldl (λ store p,
                set_attribute store p.2 name (of_number (results !! p.1)))
         (node_attributes graph) (imap pair (nodes graph));
     edge_attributes := edge_attributes graph |}.

Definition invalid_graph : error :=
  Error "graphology-centrality/beetweenness-centrality: the given graph is not a valid graphology instance.".

(** The sums over all sources, before rescaling (the indexer is returned with
    them: the projection needs its [index]). *)
Definition node_totals (lib : IndexedBrandes) (graph : Graph)
    (options : gmap string value) : result (Indexer * list float) :=
  brandes ← create lib graph (strategy options);
  let N := order graph in
  state ← node_sources N 0 brandes (Float64Array.make N, Float64Array.make N);
  Ok (brandes, state.2).

(** The array handed to the projector. *)
Definition node_centralities (lib : IndexedBrandes) (graph : Graph)
    (options : gmap string value) : result (Indexer * list float) :=
  r ← node_totals lib graph options;
  Ok (r.1, node_rescale (prop options "normalized") (order graph) (type graph) r.2).

(** The function returns the state the call leaves its first argument in,
    and the completion: a mapping (collect), [undefined] (assign), or the
    error thrown. *)
Definition abstractBetweennessCentrality (lib : IndexedBrandes) (assign : bool)
    (graph : input) (options : option (gmap string value))
  : input * result (option (gmap string float)) :=
  if negb (isGraph graph) then (graph, Throw invalid_graph)
  else
    match graph with
    | NotAGraph _ => (graph, Throw TypeError)
    | AGraph g =>
        let options := resolveDefaults options DEFAULTS_NODE in
        let outputName := prop options "nodeCentralityAttribute" in
        match node_centralities lib g options with
        | Throw e => (graph, Throw e)
        | Ok (brandes, centralities) =>
            if assign then
              (AGraph (index_assign (to_property_key outputName) centralities g),
               Ok None)
            else (graph, Ok (Some (index_collect brandes centralities)))
        end
    end.

(* ================================================================== *)
(** * Edge betweenness: [abstractEdgeBetweennessCentrality]             *)
(* ================================================================== *)

(** [graph.forEachEdge(callback)], the callback updating [acc]. *)
Definition forEachEdge {A : Type} (graph : Graph) (callback : string → A → A)
    (acc : A) : A :=
  foldl (λ a e, callback e a) acc (edges graph).

(** [graph.forEachEdge(function (edge) { edgeCentralities[edge] = 0.0; })]
    on [edgeCentralities = {}]. *)
Definition edge_init (graph : Graph) : gmap string float :=
  forEachEdge graph (λ e o, Obj.set o e 0%float) ∅.

(** The body of the loop over predecessors:
    [c = sigma[v] * coefficient;
     vw = graph.edge(nodes[v], nodes[w]); wv = graph.edge(nodes[w], nodes[v]);
     if (vw === undefined) edgeCentralities[wv] += c;
     else edgeCentralities[vw] += c;
     delta[v] += c;]
    Both lookups are made, and either may throw, before anything is
    written. *)
Definition edge_body (graph : Graph) (nodes : list string) (sigma : list float)
    (coefficient : float) (w v : nat)
    (state : list float * gmap string float)
  : result (list float * gmap string float) :=
  let c := (Float64Array.get sigma v * coefficient)%float in
  vw ← edge graph (Obj.key (nodes !! v)) (Obj.key (nodes !! w));
  wv ← edge graph (Obj.key (nodes !! w)) (Obj.key (nodes !! v));
  let edgeCentralities :=
    match vw with
    | None => Obj.add state.2 (Obj.key wv) c
    | Some vw => Obj.add state.2 vw c
    end in
  Ok (Float64Array.add state.1 v c, edgeCentralities).

Fixpoint edge_predecessors (n j : nat) (Pw : list nat) (graph : Graph)
    (nodes : list string) (sigma : list float) (coefficient : float) (w : nat)
    (state : list float * gmap string float)
  : result (list float * gmap string float) :=
  match n with
  | 0 => Ok state
  | S n' =>
      state' ← match Pw !! j with
               | Some v => edge_body graph nodes sigma coefficient w v state
               | None => Ok state
               end;
      edge_predecessors n' (S j) Pw graph nodes sigma coefficient w state'
  end.

Fixpoint edge_accumulate (size : nat) (items : list nat) (P : list (list nat))
    (sigma : list float) (graph : Graph) (nodes : list string)
    (state : list float * gmap string float)
  : result (list float * gmap string float) :=
  match size with
  | 0 => Ok state
  | S size' =>
      match items !! size' with
      | None => Throw TypeError
      | Some w =>
          let coefficient := coefficient_of state.1 sigma w in
          match P !! w with
          | None => Throw TypeError
          | Some Pw =>
              state' ← edge_predecessors (length Pw) 0 Pw graph nodes sigma
                         coefficient w state;
              edge_accumulate size' items P sigma graph nodes state'
          end
      end
  end.

Definition edge_source (graph : Graph) (brandes : Indexer) (i : nat)
    (state : list float * gmap string float)
  : result (list float * gmap string float) :=
  t ← run brandes i;
  let delta := reset_delta (tS t) state.1 in
  edge_accumulate (size (tS t)) (items (tS t)) (tP t) (tsigma t) graph
    (index_nodes brandes) (delta, state.2).

Fixpoint edge_sources (n i : nat) (graph : Graph) (brandes : Indexer)
    (state : list float * gmap string float)
  : result (list float * gmap string float) :=
  match n with
  | 0 => Ok state
  | S n' =>
      state' ← edge_source graph brandes i state;
      edge_sources n' (S i) graph brandes state'
  end.

(** [if (normalized) scale = order <= 1 ? null : 1 / (order * (order - 1));
     else scale = graph.type === 'undirected' ? 0.5 : null;] *)
Definition edge_scale (normalized : value) (order : nat) (ty : GraphType)
  : option float :=
  if truthy normalized then
    if Nat.leb order 1 then None
    else Some (1 / (number_of_nat order * (number_of_nat order - 1)))%float
  else
    match ty with
    | undirected => Some 0.5%float
    | _ => None
    end.

(** [if (scale !== null) graph.forEachEdge(function (edge) {
       edgeCentralities[edge] *= scale; });] *)
Definition edge_rescale (graph : Graph) (scale : option float)
    (edgeCentralities : gmap string float) : gmap string float :=
  match scale with
  | None => edgeCentralities
  | Some scale =>
      forEachEdge graph (λ e o, Obj.mul o e scale) edgeCentralities
  end.

(** Modelled from the spec: [graph.updateEachEdgeAttributes] (not under
    src/): each edge's attribute store is replaced by what the updater makes
    of it. *)
Definition updateEachEdgeAttributes (graph : Graph)
    (updater : string → gmap string attribute → gmap string attribute)
  : Graph :=
  {| nodes := nodes graph;
     type := type graph;
     multi := multi graph;
     edges := edges graph;
     adjacency := adjacency graph;
     node_attributes := node_attributes graph;
     edge_attributes :=
       forEachEdge graph
         (λ e store, <[e := updater e (default ∅ (store !! e))]> store)
         (edge_attributes graph) |}.

(** The per-edge sums over all sources, before rescaling. *)
Definition edge_totals (lib : IndexedBrandes) (graph : Graph)
    (options : gmap string value) : result (gmap string float) :=
  brandes ← create lib graph (strategy options);
  let order := order graph in
  state ← edge_sources order 0 graph brandes
             (Float64Array.make order, edge_init graph);
  Ok state.2.

Definition edge_centralities (lib : IndexedBrandes) (graph : Graph)
    (options : gmap string value) : result (gmap string float) :=
  totals ← edge_totals lib graph options;
  Ok (edge_rescale graph
        (edge_scale (prop options "normalized") (order graph) (type graph))
        totals).

Definition abstractEdgeBetweennessCentrality (lib : IndexedBrandes)
    (assign : bool) (graph : input) (options : option (gmap string value))
  : input * result (option (gmap string float)) :=
  if negb (isGraph graph) then (graph, Throw invalid_graph)
  else
    match graph with
    | NotAGraph _ => (graph, Throw TypeError)
    | AGraph g =>
        let options := resolveDefaults options DEFAULTS_EDGE in
        let outputName := prop options "edgeCentralityAttribute" in
        match edge_centralities lib g options with
        | Throw e => (graph, Throw e)
        | Ok edgeCentralities =>
            if assign then
              (AGraph (updateEachEdgeAttributes g (λ e attr,
                 Obj.set attr (to_property_key outputName)
                   (Obj.read edgeCentralities e))),
               Ok None)
            else (graph, Ok (Some edgeCentralities))
        end
    end.

(** The exported functions. *)
Definition betweennessCentrality lib := abstractBetweennessCentrality lib false.
Definition betweennessCentrality_assign lib :=
  abstractBetweennessCentrality lib true.
Definition edgeBetweennessCentrality lib :=
  abstractEdgeBetweennessCentrality lib false.
Definition edgeBetweennessCentrality_assign lib :=
  abstractEdgeBetweennessCentrality lib true.

(* ================================================================== *)
(** * What the specification says, in its own words                     *)
(* ================================================================== *)

Module Spec.
(** The entry [a[i]] of an array. *)
Definition entry (a : list float) (i : nat) : float :=
  default PrimFloat.nan (a !! i).

(** "add [x] to [a[i]]" *)
Definition increase (a : list float) (i : nat) (x : float) : list float :=
  alter (λ y, (y + x)%float) i a.

(** "for every predecessor [v] in [P[w]], add [sigma[v] * coefficient] to
    [delta[v]]" *)
Definition credit_predecessors (sigma : list float) (coefficient : float)
    (Pw : list nat) (delta : list float) : list float :=
  foldl (λ delta v, increase delta v (entry sigma v * coefficient)%float)
    delta Pw.

(** "pop [w]; compute [coefficient = (1 + delta[w]) / sigma[w]]; for every
    predecessor ...; if [w != i], add [delta[w]] to [centralities[w]]" *)
Definition node_pop (P : list (list nat)) (sigma : list float) (i : nat)
    (state : list float * list float) (w : nat) : list float * list float :=
  let coefficient := ((1 + entry state.1 w) / entry sigma w)%float in
  let delta :=
    credit_predecessors sigma coefficient (default [] (P !! w)) state.1 in
  (delta,
   if decide (w = i) then state.2 else increase state.2 w (entry delta w)).

(** The order in which a stack gives back its content: last pushed first. *)
Definition pop_order (stack : FixedStack) : list nat :=
  reverse (take (size stack) (items stack)).

(** "While [S] is non-empty: pop [w]; ..." *)
Definition node_backward (t : Traversal) (i : nat)
    (state : list float * list float) : list float * list float :=
  foldl (node_pop (tP t) (tsigma t) i) state (pop_order (tS t)).

(** "look up [edge(v, w)]; if absent, ... [edge(w, v)] — attribute [c] to
    whichever orientation exists".  The lookup is the one of the graph's
    adjacency; an index without a node stands for the key ['undefined']. *)
Definition resolve_edge (graph : Graph) (nodes : list string) (v w : nat)
  : option string :=
  let name n := default "undefined" (nodes !! n) in
  match adjacency graph (name v) (name w) with
  | Some vw => Some vw
  | None => adjacency graph (name w) (name v)
  end.

(** "attribute [c]" to an edge: its total grows by [c] (with no edge under
    either orientation, the total is the one named ['undefined']). *)
Definition credit (totals : gmap string float) (e : option string)
    (c : float) : gmap string float :=
  let k := default "undefined" e in
  <[k := (default PrimFloat.nan (totals !! k) + c)%float]> totals.

(** "compute the partial contribution [c = sigma[v] * coefficient] ...
    attribute [c] ... Add [c] to [delta[v]]" *)
Definition edge_credit (graph : Graph) (nodes : list string)
    (sigma : list float) (coefficient : float) (w : nat)
    (state : list float * gmap string float) (v : nat)
  : list float * gmap string float :=
  let c := (entry sigma v * coefficient)%float in
  (increase state.1 v c, credit state.2 (resolve_edge graph nodes v w) c).

Definition edge_pop (graph : Graph) (nodes : list string)
    (P : list (list nat)) (sigma : list float)
    (state : list float * gmap string float) (w : nat)
  : list float * gmap string float :=
  let coefficient := ((1 + entry state.1 w) / entry sigma w)%float in
  foldl (edge_credit graph nodes sigma coefficient w) state
    (default [] (P !! w)).

Definition edge_backward (graph : Graph) (nodes : list string)
    (t : Traversal) (state : list float * gmap string float)
  : list float * gmap string float :=
  foldl (edge_pop graph nodes (tP t) (tsigma t)) state (pop_order (tS t)).

(** "Zero out [delta] for exactly the entries present in [S]" *)
Definition reset (stack : FixedStack) (delta : list float) : list float :=
  foldl (λ delta k, <[k := 0%float]> delta) delta
    (take (size stack) (items stack)).

(** Node rescaling: "scale = [1 / ((N-1)(N-2))] when [N > 2], otherwise no
    scaling"; raw: "[0.5] if the graph is undirected ..., otherwise no
    scaling". *)
Definition node_scaling (normalized : bool) (N : nat) (ty : GraphType)
    (x : float) : float :=
  if normalized then
    if decide (2 < N)
    then (x * (1 / ((number_of_nat N - 1) * (number_of_nat N - 2))))%float
    else x
  else
    if decide (ty = undirected) then (x * 0.5)%float else x.

(** Edge rescaling: "[1 / (N(N-1))] when [N > 1], else none; raw scale =
    [0.5] for undirected graphs, else none". *)
Definition edge_scaling (normalized : bool) (N : nat) (ty : GraphType)
    (x : float) : float :=
  if normalized then
    if decide (1 < N)
    then (x * (1 / (number_of_nat N * (number_of_nat N - 1))))%float
    else x
  else
    if decide (ty = undirected) then (x * 0.5)%float else x.

(** A scaling "applied uniformly to every edge's total": the entries under
    the keys of the graph's edges. *)
Definition on_edges (graph : Graph) (f : float → float)
    (totals : gmap string float) : gmap string float :=
  map_imap (λ e x, Some (if decide (e ∈ edges graph) then f x else x)) totals.
End Spec.

(** The loops of the source as folds over what they visit, with the
    operations of the source: what the index loops compute when no lookup
    throws. *)
Module Fold.
Definition credit_predecessors (sigma : list float) (coefficient : float)
    (Pw : list nat) (delta : list float) : list float :=
  foldl (λ delta v,
           Float64Array.add delta v (Float64Array.get sigma v * coefficient)%float)
    delta Pw.

Definition node_pop (P : list (list nat)) (sigma : list float) (i : nat)
    (state : list float * list float) (w : nat) : list float * list float :=
  let coefficient := coefficient_of state.1 sigma w in
  let delta :=
    credit_predecessors sigma coefficient (default [] (P !! w)) state.1 in
  (delta,
   if decide (w = i) then state.2
   else Float64Array.add state.2 w (Float64Array.get delta w)).

Definition edge_credit (graph : Graph) (nodes : list string)
    (sigma : list float) (coefficient : float) (w : nat)
    (state : list float * gmap string float) (v : nat)
  : list float * gmap string float :=
  let c := (Float64Array.get sigma v * coefficient)%float in
  (Float64Array.add state.1 v c,
   Obj.add state.2 (Obj.key (Spec.resolve_edge graph nodes v w)) c).

Definition edge_pop (graph : Graph) (nodes : list string)
    (P : list (list nat)) (sigma : list float)
    (state : list float * gmap string float) (w : nat)
  : list float * gmap string float :=
  foldl (edge_credit graph nodes sigma (coefficient_of state.1 sigma w) w)
    state (default [] (P !! w)).
End Fold.

(** A completion, the mapping it carries (if any) transformed. *)
Definition on_mapping (f : gmap string float → gmap string float)
    (r : result (option (gmap string float)))
  : result (option (gmap string float)) :=
  match r with
  | Ok (Some o) => Ok (Some (f o))
  | other => other
  end.

(* ================================================================== *)
(** * Well-formed traversal results                                     *)
(* ================================================================== *)

(** The stack holds no more than its buffer, and every node in it has a
    predecessor list. *)
Definition traversal_wf (t : Traversal) : Prop :=
  size (tS t) ≤ length (items (tS t)) ∧
  Forall (λ w, w < length (tP t)) (take (size (tS t)) (items (tS t))).

(** The nodes of every predecessor link of the nodes [ws] are nodes of the
    graph ([names] maps the indices to node keys). *)
Definition links_known (graph : Graph) (names : list string)
    (P : list (list nat)) (ws : list nat) : Prop :=
  Forall (λ w,
    Forall (λ v, Obj.key (names !! v) ∈ nodes graph ∧
                 Obj.key (names !! w) ∈ nodes graph)
      (default [] (P !! w))) ws.

(** Every call of [graph.edge] made while the traversal [t] is consumed
    returns: the graph is no multigraph, and it has the two nodes of every
    predecessor link. *)
Definition lookups_return (graph : Graph) (names : list string)
    (t : Traversal) : Prop :=
  multi graph = false ∧
  links_known graph names (tP t) (take (size (tS t)) (items (tS t))).

(** The edges credited while the traversal [t] is consumed. *)
Definition credited (graph : Graph) (nodes : list string) (t : Traversal)
  : list string :=
  w ← Spec.pop_order (tS t);
  v ← default [] (tP t !! w);
  [Obj.key (Spec.resolve_edge graph nodes v w)].

(** No source below [N] credits the edge [e]. *)
Definition never_credited (graph : Graph) (brandes : Indexer) (N : nat)
    (e : string) : Prop :=
  Forall (λ i, match run brandes i with
               | Ok t => e ∉ credited graph (index_nodes brandes) t
               | Throw _ => True
               end) (seq 0 N).

(* ================================================================== *)
(** * Zero under normalization, by evaluation                           *)
(* ================================================================== *)

(** [0.0 * (1 / (n * (n - 1)))]: what the normalized edge rescaling makes of
    a total of zero in a graph of order [n], the order given in binary. *)
Definition rescaled_zero (n : N) : float :=
  let order := PrimFloat.of_uint63 (Uint63.of_Z (Z.of_N n)) in
  (0 * (1 / (order * (order - 1))))%float.

(** One round of the check: the order to look at next, and whether every
    order looked at so far kept zero at zero. *)
Definition check_step (s : N * bool) : N * bool :=
  (N.succ s.1, s.2 && PrimFloat.Leibniz.eqb (rescaled_zero s.1) 0%float).

(** The check of the [count] orders from [lo] on. *)
Definition check_from (lo count : N) : bool :=
  (N.iter count check_step (lo, true)).2.

#[global] Instance traversal_wf_dec t : Decision (traversal_wf t).
Proof. unfold traversal_wf. apply _. Defined.

#[global] Instance links_known_dec graph names P ws :
  Decision (links_known graph names P ws).
Proof. unfold links_known. apply _. Defined.

#[global] Instance lookups_return_dec graph names t :
  Decision (lookups_return graph names t).
Proof. unfold lookups_return. apply _. Defined.

#[global] Instance numeric_dec o k : Decision (Obj.numeric o k).
Proof. unfold Obj.numeric. apply _. Defined.

#[global] Instance never_credited_dec graph brandes N e :
  Decision (never_credited graph brandes N e).
Proof.
  apply Forall_dec. intros i. destruct (run brandes i); apply _.
Defined.

(** Closes the well-formedness of a traversal given by its tables. *)
Ltac traversal_wf_by_evaluation :=
  split; [simpl; lia | simpl; repeat constructor; simpl; lia].

(* ================================================================== *)
(** * Two small graphs with their traversal tables                      *)
(* ================================================================== *)

Module Example.
Definition joins (a b : string) (u v : string) : bool :=
  bool_decide (u = a ∧ v = b).

(** The undirected path A - B - C: each edge is found under both
    orientations. *)
Definition undirected_path : Graph :=
  {| nodes := ["A"; "B"; "C"];
     type := undirected;
     multi := false;
     edges := ["AB"; "BC"];
     adjacency := λ u v,
       if joins "A" "B" u v || joins "B" "A" u v then Some "AB"
       else if joins "B" "C" u v || joins "C" "B" u v then Some "BC"
       else None;
     node_attributes := ∅;
     edge_attributes := ∅ |}.

Definition traversal (items : list nat) (size : nat) (P : list (list nat))
    (sigma : list float) : Traversal :=
  {| tS := {| items := items; size := size |}; tP := P; tsigma := sigma |}.

(** Breadth-first traversals of the undirected path from A, B and C. *)
Definition undirected_path_brandes : Indexer :=
  {| run := λ i,
       match i with
       | 0 => Ok (traversal [0; 1; 2] 3 [[]; [0]; [1]] [1; 1; 1]%float)
       | 1 => Ok (traversal [1; 0; 2] 3 [[1]; []; [1]] [1; 1; 1]%float)
       | 2 => Ok (traversal [2; 1; 0] 3 [[1]; [2]; []] [1; 1; 1]%float)
       | _ => Throw TypeError
       end;
     index_nodes := ["A"; "B"; "C"] |}.

(** The directed path A -> B -> C. *)
Definition directed_path : Graph :=
  {| nodes := ["A"; "B"; "C"];
     type := directed;
     multi := false;
     edges := ["AB"; "BC"];
     adjacency := λ u v,
       if joins "A" "B" u v then Some "AB"
       else if joins "B" "C" u v then Some "BC"
       else None;
     node_attributes := ∅;
     edge_attributes := ∅ |}.

(** Its traversals; the stack's buffer keeps what earlier calls left past
    the stack's size. *)
Definition directed_path_brandes : Indexer :=
  {| run := λ i,
       match i with
       | 0 => Ok (traversal [0; 1; 2] 3 [[]; [0]; [1]] [1; 1; 1]%float)
       | 1 => Ok (traversal [1; 2; 2] 2 [[]; []; [1]] [0; 1; 1]%float)
       | 2 => Ok (traversal [2; 2; 2] 1 [[]; []; []] [0; 0; 1]%float)
       | _ => Throw TypeError
       end;
     index_nodes := ["A"; "B"; "C"] |}.

(** A library whose factories both answer with the given indexer (every
    edge of the examples weighs 1). *)
Definition lib_of (brandes : Indexer) : IndexedBrandes :=
  {| createUnweightedIndexedBrandes := λ _, Ok brandes;
     createDijkstraIndexedBrandes := λ _ _, Ok brandes |}.

(** A library that tells which factory was called, by the error it
    throws. *)
Definition probe : IndexedBrandes :=
  {| createUnweightedIndexedBrandes := λ _, Throw (Error "unweighted");
     createDijkstraIndexedBrandes := λ _ _, Throw (Error "Dijkstra") |}.

(** The directed path with a loop at C, an edge on no shortest path. *)
Definition looped_path : Graph :=
  {| nodes := ["A"; "B"; "C"];
     type := directed;
     multi := false;
     edges := ["AB"; "BC"; "CC"];
     adjacency := λ u v,
       if joins "A" "B" u v then Some "AB"
       else if joins "B" "C" u v then Some "BC"
       else if joins "C" "C" u v then Some "CC"
       else None;
     node_attributes := ∅;
     edge_attributes := ∅ |}.


(** The undirected path A - B - C whose edge between A and B has the key
    [__proto__]. *)
Definition proto_path : Graph :=
  {| nodes := ["A"; "B"; "C"];
     type := undirected;
     multi := false;
     edges := ["__proto__"; "BC"];
     adjacency := λ u v,
       if joins "A" "B" u v || joins "B" "A" u v then Some "__proto__"
       else if joins "B" "C" u v || joins "C" "B" u v then Some "BC"
       else None;
     node_attributes := ∅;
     edge_attributes := ∅ |}.

(** The same graph as a multigraph. *)
Definition as_multi (graph : Graph) : Graph :=
  {| nodes := nodes graph;
     type := type graph;
     multi := true;
     edges := edges graph;
     adjacency := adjacency graph;
     node_attributes := node_attributes graph;
     edge_attributes := edge_attributes graph |}.
End Example.

(* ================================================================== *)
(** * What Brandes' indexers promise, and the round on a fresh [delta]  *)
(* ================================================================== *)

(** The traversal of source [i] as the indexers build it: well formed, the
    source pushed first (so popped last), no node pushed twice, and no
    predecessor for the source. *)
Definition brandes_result (i : nat) (t : Traversal) : Prop :=
  traversal_wf t ∧
  0 < size (tS t) ∧
  items (tS t) !! 0 = Some i ∧
  NoDup (take (size (tS t)) (items (tS t))) ∧
  tP t !! i = Some [].

#[global] Instance brandes_result_dec i t : Decision (brandes_result i t).
Proof. unfold brandes_result. apply _. Defined.

(** The indexer answers every source below [N] with a traversal that is
    [good] for that source. *)
Definition indexer_answers (good : nat → Traversal → Prop) (N : nat)
    (brandes : Indexer) : Prop :=
  Forall (λ i, match run brandes i with
               | Ok t => good i t
               | Throw _ => False
               end) (seq 0 N).

#[global] Instance indexer_answers_dec good N brandes :
  (∀ i t, Decision (good i t)) → Decision (indexer_answers good N brandes).
Proof.
  intros Hdec. apply Forall_dec. intros i. destruct (run brandes i); apply _.
Defined.

(** No node of the traversal has a predecessor (a graph without edges). *)
Definition no_predecessors (i : nat) (t : Traversal) : Prop :=
  traversal_wf t ∧ Forall (λ Pw, Pw = []) (tP t).

#[global] Instance no_predecessors_dec i t : Decision (no_predecessors i t).
Proof. unfold no_predecessors. apply _. Defined.

(** The round of the traversal [t] completes in the edge function: the
    traversal is well formed and every lookup returns. *)
Definition edge_round_wf (graph : Graph) (names : list string) (i : nat)
    (t : Traversal) : Prop :=
  traversal_wf t ∧ lookups_return graph names t.

#[global] Instance edge_round_wf_dec graph names i t :
  Decision (edge_round_wf graph names i t).
Proof. unfold edge_round_wf. apply _. Defined.

(** The round completes, and every edge it credits is an edge the graph
    enumerates. *)
Definition credits_edges (graph : Graph) (names : list string) (i : nat)
    (t : Traversal) : Prop :=
  edge_round_wf graph names i t ∧
  Forall (λ k, k ∈ edges graph) (credited graph names t).

#[global] Instance credits_edges_dec graph nodes i t :
  Decision (credits_edges graph nodes i t).
Proof. unfold credits_edges. apply _. Defined.

(** The same for the edge function: moreover every lookup of the round
    returns, and the keys it credits are [numeric] once the totals are
    initialized. *)
Definition edge_brandes_result (graph : Graph) (names : list string) (i : nat)
    (t : Traversal) : Prop :=
  brandes_result i t ∧ lookups_return graph names t ∧
  Forall (Obj.numeric (edge_init graph)) (credited graph names t).

#[global] Instance edge_brandes_result_dec graph names i t :
  Decision (edge_brandes_result graph names i t).
Proof. unfold edge_brandes_result. apply _. Defined.

Module Fresh.
(** One round of the node accumulator as Brandes' algorithm has it: the
    backward pass from a [delta] of [N] zeroes. *)
Definition node_round (N : nat) (t : Traversal) (i : nat)
    (centralities : list float) : list float :=
  (Spec.node_backward t i (Float64Array.make N, centralities)).2.

(** One round of the edge accumulator from a [delta] of [N] zeroes. *)
Definition edge_round (N : nat) (graph : Graph) (nodes : list string)
    (t : Traversal) (edgeCentralities : gmap string float)
  : gmap string float :=
  (Spec.edge_backward graph nodes t (Float64Array.make N, edgeCentralities)).2.

(** The rounds of the sources [0 .. N-1], one after the other. *)
Definition node_rounds (N : nat) (brandes : Indexer)
    (centralities : list float) : list float :=
  foldl (λ centralities i,
           match run brandes i with
           | Ok t => node_round N t i centralities
           | Throw _ => centralities
           end) centralities (seq 0 N).

Definition edge_rounds (N : nat) (graph : Graph) (brandes : Indexer)
    (edgeCentralities : gmap string float) : gmap string float :=
  foldl (λ edgeCentralities i,
           match run brandes i with
           | Ok t => edge_round N graph (index_nodes brandes) t edgeCentralities
           | Throw _ => edgeCentralities
           end) edgeCentralities (seq 0 N).
End Fresh.

(** Two arrays hold the same at every index of [A] (the same number, or
    nothing at all). *)
Definition agree (A : list nat) (d1 d2 : list float) : Prop :=
  ∀ w, w ∈ A → d1 !! w = d2 !! w.

(** Two completions are alike: the same error, or results with the same
    [delta]. *)
Definition same_delta {A B : Type} (r1 : result (list float * A))
    (r2 : result (list float * B)) : Prop :=
  match r1, r2 with
  | Ok s1, Ok s2 => s1.1 = s2.1
  | Throw e1, Throw e2 => e1 = e2
  | _, _ => False
  end.

(** Every key of the totals is an edge the graph enumerates. *)
Definition keys_are_edges (graph : Graph) (totals : gmap string float) : Prop :=
  ∀ k, is_Some (totals !! k) → k ∈ edges graph.

(** The error the round of source [i] ends with, if any: the one [brandes(i)]
    throws, or the [TypeError] of a malformed traversal. *)
Definition round_error (brandes : Indexer) (i : nat) : option error :=
  match run brandes i with
  | Throw e => Some e
  | Ok t => if decide (traversal_wf t) then None else Some TypeError
  end.

(** Some node [w] of the stack of [t] has a predecessor [v] for which
    [graph.edge] returns [undefined] under both orientations. *)
Definition unresolved (graph : Graph) (nodes : list string) (t : Traversal)
  : Prop :=
  Exists (λ w,
    Exists (λ v,
      edge graph (Obj.key (nodes !! v)) (Obj.key (nodes !! w)) = Ok None ∧
      edge graph (Obj.key (nodes !! w)) (Obj.key (nodes !! v)) = Ok None)
      (default [] (tP t !! w)))
    (take (size (tS t)) (items (tS t))).

#[global] Instance unresolved_dec graph nodes t :
  Decision (unresolved graph nodes t).
Proof. unfold unresolved. apply _. Defined.

(** The same graph with a lookup that finds no edge at all. *)
Definition no_lookup (graph : Graph) : Graph :=
  {| nodes := nodes graph;
     type := type graph;
     multi := multi graph;
     edges := edges graph;
     adjacency := λ _ _, None;
     node_attributes := node_attributes graph;
     edge_attributes := edge_attributes graph |}.

(** The own property [name] of the attributes a store holds for [element],
    if there is one. *)
Definition attribute_of (store : attributes) (element name : string)
  : option attribute :=
  store !! element ≫= (λ attrs, attrs !! name).

(** Some node of the stack of [t] has a predecessor. *)
Definition has_link (t : Traversal) : Prop :=
  Exists (λ w, default [] (tP t !! w) ≠ [])
    (take (size (tS t)) (items (tS t))).

#[global] Instance has_link_dec t : Decision (has_link t).
Proof. unfold has_link. apply _. Defined.

(** An indexer that fails at source [k] with the error [e]. *)
Definition failing_at (k : nat) (e : error) (brandes : Indexer) : Indexer :=
  {| run := λ i, if decide (i = k) then Throw e else run brandes i;
     index_nodes := index_nodes brandes |}.

(* ================================================================== *)
(** * The model at work                                                 *)
(* ================================================================== *)

(** Raw node betweenness of the undirected path A - B - C: B lies on the one
    shortest path between A and C. *)
Example undirected_path_nodes :
  betweennessCentrality (Example.lib_of Example.undirected_path_brandes)
    (AGraph Example.undirected_path)
    (Some (<["normalized" := VBool false]> ∅))
  = (AGraph Example.undirected_path,
     Ok (Some (<["A" := 0%float]> (<["B" := 1%float]> (<["C" := 0%float]> ∅))))).
Proof. vm_compute. reflexivity. Qed.

(** Raw edge betweenness of the same path: each edge separates one node from
    two. *)
Example undirected_path_edges :
  (edgeBetweennessCentrality (Example.lib_of Example.undirected_path_brandes)
     (AGraph Example.undirected_path)
     (Some (<["normalized" := VBool false]> ∅))).2
  = Ok (Some (<["AB" := 2%float]> (<["BC" := 2%float]> ∅))).
Proof. vm_compute. reflexivity. Qed.

(** The assign variant returns [undefined] and writes the attribute. *)
Example directed_path_assign :
  match betweennessCentrality_assign
          (Example.lib_of Example.directed_path_brandes)
          (AGraph Example.directed_path) None with
  | (AGraph graph, Ok None) =>
      node_attributes graph !! "B"
      = Some (<["nodeBetweennessCentrality" := ANumber 0.5%float]> ∅)
  | _ => False
  end.
Proof. vm_compute. reflexivity. Qed.

(** On a multigraph [graph.edge] throws at the first predecessor link: the
    edge function throws where the node function returns. *)
Example multigraph_edges :
  let graph := Example.as_multi Example.undirected_path in
  let lib := Example.lib_of Example.undirected_path_brandes in
  (edgeBetweennessCentrality lib (AGraph graph) None).2
  = Throw UsageGraphError ∧
  (betweennessCentrality lib (AGraph graph) None).2
  = Ok (Some (<["A" := 0%float]> (<["B" := 1%float]> (<["C" := 0%float]> ∅)))).
Proof. split; vm_compute; reflexivity. Qed.

(* ================================================================== *)
(** * Arrays keep their length                                          *)
(* ================================================================== *)

Section lengths.
Implicit Types (a delta centralities sigma : list float) (i j k n : nat).

Lemma length_set a i x : length (Float64Array.set a i x) = length a.
Proof. apply length_insert. Qed.

Lemma length_add a i x : length (Float64Array.add a i x) = length a.
Proof. apply length_set. Qed.

Lemma length_mul a i x : length (Float64Array.mul a i x) = length a.
Proof. apply length_set. Qed.

Lemma length_make n : length (Float64Array.make n) = n.
Proof. apply length_replicate. Qed.

Lemma length_reset_loop stack j delta :
  length (reset_loop stack j delta) = length delta.
Proof.
  revert delta. induction j as [|j IH]; intros delta; simpl; [done|].
  rewrite IH. destruct (items stack !! _); [apply length_set | done].
Qed.

Lemma length_node_predecessors n j Pw sigma c delta :
  length (node_predecessors n j Pw sigma c delta) = length delta.
Proof.
  revert j delta. induction n as [|n IH]; intros j delta; simpl; [done|].
  rewrite IH. destruct (Pw !! j); [apply length_add | done].
Qed.

Lemma length_node_accumulate n items P sigma i delta centralities r :
  node_accumulate n items P sigma i delta centralities = Ok r →
  length r.1 = length delta ∧ length r.2 = length centralities.
Proof.
  revert delta centralities.
  induction n as [|n IH]; intros delta centralities; simpl.
  - intros [= <-]. done.
  - destruct (items !! n) as [w|]; [|done].
    destruct (P !! w) as [Pw|]; [|done].
    intros [H1 H2]%IH. rewrite length_node_predecessors in H1.
    split; [done|]. rewrite H2. case_decide; [done | apply length_add].
Qed.

Lemma length_node_sources n i brandes state r :
  node_sources n i brandes state = Ok r →
  length r.1 = length state.1 ∧ length r.2 = length state.2.
Proof.
  revert i state. induction n as [|n IH]; intros i state; simpl.
  - intros [= <-]. done.
  - unfold node_source, mbind, result_bind at 1.
    destruct (run brandes i) as [t|]; simpl; [|done].
    destruct (node_accumulate _ _ _ _ _ _ _) as [state'|] eqn:E; [|done].
    apply length_node_accumulate in E as [E1 E2].
    unfold reset_delta in E1. rewrite length_reset_loop in E1.
    intros [H1 H2]%IH. split; congruence.
Qed.
End lengths.

(* ================================================================== *)
(** * The loops, as folds over what they visit                          *)
(* ================================================================== *)

Section loops.
Implicit Types (delta centralities sigma : list float) (i j n w : nat).
Implicit Types (Pw items : list nat) (P : list (list nat)).

Lemma node_predecessors_drop n j Pw sigma c delta :
  j + n = length Pw →
  node_predecessors n j Pw sigma c delta
  = Fold.credit_predecessors sigma c (drop j Pw) delta.
Proof.
  revert j delta. induction n as [|n IH]; intros j delta Hlen; simpl.
  - rewrite drop_ge by lia. done.
  - destruct (lookup_lt_is_Some_2 Pw j) as [v Hv]; [lia|].
    rewrite Hv, (drop_S _ _ _ Hv). rewrite IH by lia. done.
Qed.

Lemma node_predecessors_all Pw sigma c delta :
  node_predecessors (length Pw) 0 Pw sigma c delta
  = Fold.credit_predecessors sigma c Pw delta.
Proof. by rewrite node_predecessors_drop. Qed.

(** [a[i] += x] adds [x] to the entry [a[i]], if the array has it. *)
Lemma add_increase (a : list float) i x :
  Float64Array.add a i x = Spec.increase a i x.
Proof.
  unfold Float64Array.add, Float64Array.set, Float64Array.get, Spec.increase.
  apply list_eq. intros k.
  destruct (decide (i = k)) as [->|Hne].
  - rewrite list_lookup_alter_eq.
    destruct (a !! k) as [y|] eqn:Hy; simpl.
    + apply list_lookup_insert_eq. by eapply lookup_lt_Some.
    + rewrite list_insert_ge by (by apply lookup_ge_None). done.
  - by rewrite list_lookup_insert_ne, list_lookup_alter_ne.
Qed.

Lemma foldl_pointwise {A B : Type} (f g : A → B → A) (l : list B) (a : A) :
  (∀ a b, f a b = g a b) → foldl f a l = foldl g a l.
Proof.
  intros Hfg. revert a. induction l as [|b l IH]; intros a; [done|].
  simpl. by rewrite Hfg, IH.
Qed.

Lemma fold_credit_predecessors sigma c Pw delta :
  Fold.credit_predecessors sigma c Pw delta
  = Spec.credit_predecessors sigma c Pw delta.
Proof.
  unfold Fold.credit_predecessors, Spec.credit_predecessors.
  apply foldl_pointwise. intros a v. apply add_increase.
Qed.

(** The step of the node accumulator is the pop of the specification. *)
Lemma fold_node_pop P sigma i state w :
  Fold.node_pop P sigma i state w = Spec.node_pop P sigma i state w.
Proof.
  unfold Fold.node_pop, Spec.node_pop. rewrite fold_credit_predecessors.
  f_equal. case_decide; [done|]. apply add_increase.
Qed.

Lemma fold_node_pops P sigma i ws state :
  foldl (Fold.node_pop P sigma i) state ws
  = foldl (Spec.node_pop P sigma i) state ws.
Proof. apply foldl_pointwise. intros. apply fold_node_pop. Qed.

(** Outside [__proto__], [o[k] += c] is the credit of the specification. *)
Lemma add_credit (o : gmap string float) e c :
  Obj.key e ≠ "__proto__" → Obj.add o (Obj.key e) c = Spec.credit o e c.
Proof.
  intros Hk. unfold Obj.add, Obj.set, Obj.get, Spec.credit, to_number, Obj.key.
  by rewrite decide_False.
Qed.

Lemma fold_edge_credit graph nodes sigma c w state v :
  Obj.key (Spec.resolve_edge graph nodes v w) ≠ "__proto__" →
  Fold.edge_credit graph nodes sigma c w state v
  = Spec.edge_credit graph nodes sigma c w state v.
Proof.
  intros Hk. unfold Fold.edge_credit, Spec.edge_credit.
  by rewrite add_increase, add_credit.
Qed.

Lemma fold_edge_credits graph nodes sigma c w Pw state :
  Forall (λ k, k ≠ "__proto__")
    (v ← Pw; [Obj.key (Spec.resolve_edge graph nodes v w)]) →
  foldl (Fold.edge_credit graph nodes sigma c w) state Pw
  = foldl (Spec.edge_credit graph nodes sigma c w) state Pw.
Proof.
  revert state. induction Pw as [|v Pw IH]; intros state Hall; [done|].
  rewrite bind_cons, Forall_app, Forall_singleton in Hall.
  destruct Hall as [Hv Hall]. simpl.
  by rewrite fold_edge_credit, IH.
Qed.

Lemma fold_edge_pops graph nodes P sigma ws state :
  Forall (λ k, k ≠ "__proto__")
    (w ← ws; v ← default [] (P !! w);
     [Obj.key (Spec.resolve_edge graph nodes v w)]) →
  foldl (Fold.edge_pop graph nodes P sigma) state ws
  = foldl (Spec.edge_pop graph nodes P sigma) state ws.
Proof.
  revert state. induction ws as [|w ws IH]; intros state Hall; [done|].
  rewrite bind_cons, Forall_app in Hall. destruct Hall as [Hw Hall]. simpl.
  rewrite <- IH by done. f_equal.
  unfold Fold.edge_pop, Spec.edge_pop. by apply fold_edge_credits.
Qed.

(** On a graph that is no multigraph, the lookup of two of its nodes
    returns what the adjacency holds. *)
Lemma edge_returns graph source target :
  multi graph = false →
  source ∈ nodes graph → target ∈ nodes graph →
  edge graph source target = Ok (adjacency graph source target).
Proof.
  intros Hmulti Hs Ht. unfold edge. rewrite Hmulti.
  by rewrite decide_True.
Qed.

(** When its two lookups return, the body of the edge accumulator's inner
    loop credits [edge(v, w)], or [edge(w, v)] when [edge(v, w)] is absent,
    and [delta[v]]. *)
Lemma edge_body_credit graph names sigma coefficient w v state :
  multi graph = false →
  Obj.key (names !! v) ∈ nodes graph →
  Obj.key (names !! w) ∈ nodes graph →
  edge_body graph names sigma coefficient w v state
  = Ok (Fold.edge_credit graph names sigma coefficient w state v).
Proof.
  intros Hmulti Hv Hw. unfold edge_body.
  rewrite !edge_returns by done. simpl.
  unfold Fold.edge_credit, Spec.resolve_edge, Obj.key.
  by destruct (adjacency graph _ _).
Qed.

Lemma edge_predecessors_drop n j Pw graph names sigma c w state :
  j + n = length Pw →
  multi graph = false →
  Forall (λ v, Obj.key (names !! v) ∈ nodes graph ∧
               Obj.key (names !! w) ∈ nodes graph) (drop j Pw) →
  edge_predecessors n j Pw graph names sigma c w state
  = Ok (foldl (Fold.edge_credit graph names sigma c w) state (drop j Pw)).
Proof.
  intros Hlen Hmulti. revert j state Hlen.
  induction n as [|n IH]; intros j state Hlen Hknown; simpl.
  - rewrite drop_ge by lia. done.
  - destruct (lookup_lt_is_Some_2 Pw j) as [v Hv]; [lia|].
    rewrite (drop_S _ _ _ Hv) in Hknown |- *.
    apply Forall_cons in Hknown as [[Hkv Hkw] Hknown].
    rewrite Hv, edge_body_credit by done. simpl.
    by rewrite IH by (done || lia).
Qed.

Lemma edge_predecessors_all Pw graph names sigma c w state :
  multi graph = false →
  Forall (λ v, Obj.key (names !! v) ∈ nodes graph ∧
               Obj.key (names !! w) ∈ nodes graph) Pw →
  edge_predecessors (length Pw) 0 Pw graph names sigma c w state
  = Ok (foldl (Fold.edge_credit graph names sigma c w) state Pw).
Proof. intros. by rewrite edge_predecessors_drop. Qed.

Lemma edge_accumulate_take n items P sigma graph names state :
  n ≤ length items →
  Forall (λ w, w < length P) (take n items) →
  multi graph = false →
  links_known graph names P (take n items) →
  edge_accumulate n items P sigma graph names state
  = Ok (foldl (Fold.edge_pop graph names P sigma) state
          (reverse (take n items))).
Proof.
  intros Hn Hall Hmulti Hknown. revert state Hn Hall Hknown.
  induction n as [|n IH]; intros state Hn Hall Hknown; simpl.
  - done.
  - destruct (lookup_lt_is_Some_2 items n) as [w Hw]; [lia|].
    unfold links_known in Hknown.
    rewrite (take_S_r _ _ _ Hw) in Hall, Hknown |- *.
    rewrite Forall_app, Forall_singleton in Hall, Hknown.
    destruct Hall as [Hall Hlast]. destruct Hknown as [Hknown Hlinks].
    destruct (lookup_lt_is_Some_2 P w) as [Pw HPw]; [done|].
    rewrite HPw in Hlinks. simpl in Hlinks.
    rewrite Hw, HPw, reverse_snoc, edge_predecessors_all by done. simpl.
    rewrite IH by (done || lia).
    do 2 f_equal. unfold Fold.edge_pop. by rewrite HPw.
Qed.

Lemma node_accumulate_fold n items P sigma i delta centralities :
  n ≤ length items →
  Forall (λ w, w < length P) (take n items) →
  node_accumulate n items P sigma i delta centralities
  = Ok (foldl (Fold.node_pop P sigma i) (delta, centralities)
          (reverse (take n items))).
Proof.
  revert delta centralities.
  induction n as [|n IH]; intros delta centralities Hn Hall; simpl; [done|].
  destruct (lookup_lt_is_Some_2 items n) as [w Hw]; [lia|].
  rewrite (take_S_r _ _ _ Hw) in Hall |- *.
  rewrite Forall_app, Forall_singleton in Hall.
  destruct Hall as [Hall Hlast].
  destruct (lookup_lt_is_Some_2 P w) as [Pw HPw]; [done|].
  rewrite Hw, HPw, reverse_snoc. simpl.
  rewrite IH by (done || lia).
  do 2 f_equal. unfold Fold.node_pop. simpl.
  rewrite HPw, node_predecessors_all. done.
Qed.

(** The reset loop visits [items[size - j + 1 .. size]]. *)
Lemma reset_loop_visits stack j delta :
  j ≤ size stack →
  reset_loop stack j delta
  = foldl (λ delta k, <[k := 0%float]> delta) delta
      (take j (drop (S (size stack - j)) (items stack))).
Proof.
  revert delta. induction j as [|j IH]; intros delta Hj; simpl; [done|].
  rewrite IH by lia.
  replace (S (size stack - S j)) with (size stack - j) by lia.
  destruct (items stack !! (size stack - j)) as [k|] eqn:Hk.
  - rewrite (drop_S _ _ _ Hk). done.
  - apply lookup_ge_None in Hk. rewrite !drop_ge by lia. by rewrite !take_nil.
Qed.

(** It starts one item too far: the items reset are [items[1 .. size]]. *)
Lemma reset_delta_visits stack delta :
  reset_delta stack delta
  = foldl (λ delta k, <[k := 0%float]> delta) delta
      (take (size stack) (drop 1 (items stack))).
Proof.
  unfold reset_delta. rewrite reset_loop_visits by done.
  by replace (S (size stack - size stack)) with 1 by lia.
Qed.
End loops.

(* ================================================================== *)
(** * The backward passes                                               *)
(* ================================================================== *)

(** C2. The backward pass of the node accumulator.  For every source [i],
    every traversal result [(S, P, sigma)] whose stack fits its buffer and
    whose nodes have predecessor lists, and every [delta] and
    [centralities], the loop returns, having treated the nodes of [S] in pop
    order (last pushed first), each popped [w] by [Spec.node_pop]: the
    coefficient is [(1 + delta[w]) / sigma[w]], every predecessor [v] of
    [P[w]] has [sigma[v] * coefficient] added to [delta[v]], and [delta[w]]
    is added to [centralities[w]] when [w] is not [i], [centralities] being
    left as it is when [w] is [i].  ([Spec.node_pop] states these sums on the
    entries of the arrays themselves, not through the operations of the
    loop.) *)
Theorem C2_node_backward_pass (t : Traversal) (i : nat)
    (delta centralities : list float) :
  traversal_wf t →
  node_accumulate (size (tS t)) (items (tS t)) (tP t) (tsigma t) i
    delta centralities
  = Ok (Spec.node_backward t i (delta, centralities)).
Proof.
  unfold traversal_wf, Spec.node_backward, Spec.pop_order.
  generalize (size (tS t)) as n, (items (tS t)) as items, (tP t) as P.
  intros n items P [Hn Hnodes]. revert delta centralities.
  induction n as [|n IH]; intros delta centralities; simpl; [done|].
  destruct (lookup_lt_is_Some_2 items n) as [w Hw]; [lia|].
  rewrite (take_S_r _ _ _ Hw) in Hnodes |- *.
  rewrite Forall_app, Forall_singleton in Hnodes.
  destruct Hnodes as [Hnodes Hlast].
  destruct (lookup_lt_is_Some_2 P w) as [Pw HPw]; [done|].
  rewrite Hw, HPw, reverse_snoc. simpl.
  rewrite IH by (done || lia).
  do 2 f_equal. rewrite <- fold_node_pop. unfold Fold.node_pop. simpl.
  rewrite HPw, node_predecessors_all. done.
Qed.

Lemma C2_node_backward_pass_witness :
  let t := Example.traversal [0; 1; 2] 3 [[]; [0]; [1]] [1; 1; 1]%float in
  traversal_wf t ∧
  node_accumulate 3 [0; 1; 2] [[]; [0]; [1]] [1; 1; 1]%float 0
    [0; 0; 0]%float [0; 0; 0]%float
  = Ok ([2; 1; 0]%float, [0; 1; 0]%float).
Proof.
  intros t.
  assert (Hwf : traversal_wf t) by traversal_wf_by_evaluation.
  split; [exact Hwf|].
  exact (C2_node_backward_pass t 0 [0; 0; 0]%float [0; 0; 0]%float Hwf).
Defined.





(* ================================================================== *)
(** * The reset of [delta]                                              *)
(* ================================================================== *)

(** C7.  On the undirected path A - B - C, the round of source A leaves
    [delta = [2; 1; 0]]; the round of source B then receives the stack
    [1, 0, 2].  The reset loop zeroes [delta[0]] and [delta[2]] and leaves
    [delta[1]], the entry of the first item of the stack, at [1]: resetting
    exactly the entries present in [S] would give [[0; 0; 0]]. *)
Theorem C7_reset_skips_first_item :
  let brandes := Example.undirected_path_brandes in
  let stack := {| items := [1; 0; 2]; size := 3 |} in
  (node_source brandes 0 (Float64Array.make 3, Float64Array.make 3)
   = Ok ([2; 1; 0]%float, [0; 1; 0]%float)) ∧
  tS <$> run brandes 1 = Ok stack ∧
  reset_delta stack [2; 1; 0]%float = [0; 1; 0]%float ∧
  Spec.reset stack [2; 1; 0]%float = [0; 0; 0]%float ∧
  reset_delta stack [2; 1; 0]%float ≠ Spec.reset stack [2; 1; 0]%float.
Proof.
  intros brandes stack. repeat split; try reflexivity.
  vm_compute. discriminate.
Qed.

(* ================================================================== *)
(** * Option resolution and validation                                  *)
(* ================================================================== *)

Lemma resolveDefaults_prop options defaults k def :
  defaults !! k = Some def →
  prop (resolveDefaults options defaults) k
  = or_default (supplied options k) def.
Proof.
  intros Hdef. unfold prop at 1, resolveDefaults.
  rewrite map_lookup_imap, Hdef. done.
Qed.

Lemma resolveDefaults_getEdgeWeight options defaults :
  defaults !! "getEdgeWeight" = Some (VStr "weight") →
  prop (resolveDefaults options defaults) "getEdgeWeight"
  = or_default (supplied options "getEdgeWeight") (VStr "weight").
Proof. apply resolveDefaults_prop. Qed.

(** C1, as stated, fails: a caller who supplies no options at all gets the
    accessor ['weight'] and the weighted strategy, in both functions.  With a
    library whose factories tell which one was called, both exported
    functions reach the Dijkstra factory. *)
Lemma C1_counterexample :
  let options : option (gmap string value) := None in
  supplied options "getEdgeWeight" = VUndefined ∧
  prop (resolveDefaults options DEFAULTS_NODE) "getEdgeWeight" = VStr "weight" ∧
  prop (resolveDefaults options DEFAULTS_EDGE) "getEdgeWeight" = VStr "weight" ∧
  strategy (resolveDefaults options DEFAULTS_NODE) ≠ Unweighted ∧
  strategy (resolveDefaults options DEFAULTS_EDGE) ≠ Unweighted ∧
  (betweennessCentrality Example.probe (AGraph Example.directed_path) options).2
  = Throw (Error "Dijkstra") ∧
  (edgeBetweennessCentrality Example.probe (AGraph Example.directed_path) options).2
  = Throw (Error "Dijkstra").
Proof.
  intros options.
  repeat (split; [vm_compute; (reflexivity || discriminate)|]).
  vm_compute. reflexivity.
Qed.

(** C1, amended.  In both functions the resolved accessor is the caller's
    [getEdgeWeight] unless that is missing or [undefined], when it is the
    default ['weight']; and the weighted strategy is selected, with the
    resolved accessor, exactly when that accessor is truthy.  So a caller
    who supplies no [getEdgeWeight] gets the weighted strategy on ['weight'],
    and the unweighted strategy is selected only for a supplied falsy value
    other than [undefined] ([null], [false], the empty string). *)
Theorem C1_strategy_selection (options : option (gmap string value)) :
  let given := supplied options "getEdgeWeight" in
  let resolved_accessor := or_default given (VStr "weight") in
  let selected :=
    if truthy resolved_accessor then Dijkstra resolved_accessor
    else Unweighted in
  (prop (resolveDefaults options DEFAULTS_NODE) "getEdgeWeight"
     = resolved_accessor ∧
   strategy (resolveDefaults options DEFAULTS_NODE) = selected) ∧
  (prop (resolveDefaults options DEFAULTS_EDGE) "getEdgeWeight"
     = resolved_accessor ∧
   strategy (resolveDefaults options DEFAULTS_EDGE) = selected) ∧
  (given = VUndefined → selected = Dijkstra (VStr "weight")) ∧
  (selected = Unweighted ↔ given ≠ VUndefined ∧ truthy given = false).
Proof.
  intros given resolved_accessor selected.
  pose proof (resolveDefaults_getEdgeWeight options DEFAULTS_NODE eq_refl)
    as HN.
  pose proof (resolveDefaults_getEdgeWeight options DEFAULTS_EDGE eq_refl)
    as HE.
  fold given in HN, HE. fold resolved_accessor in HN, HE.
  unfold strategy. rewrite HN, HE. fold selected.
  clearbody given. clear HN HE.
  split; [by split|]. split; [by split|].
  subst selected resolved_accessor.
  split; [by intros ->|].
  destruct given as [| |[]|s|code]; simpl;
    try (split; [discriminate | intros [? ?]; congruence]);
    try (split; [intros _; split; [discriminate | reflexivity] | reflexivity]).
  destruct (String.eqb s EmptyString); simpl.
  - split; [intros _; split; [discriminate | reflexivity] | reflexivity].
  - split; [discriminate | intros [? ?]; congruence].
Qed.

Lemma C1_strategy_selection_witness :
  let options : option (gmap string value) :=
    Some (<["getEdgeWeight" := VNull]> ∅) in
  supplied None "getEdgeWeight" = VUndefined ∧
  strategy (resolveDefaults None DEFAULTS_NODE) = Dijkstra (VStr "weight") ∧
  strategy (resolveDefaults options DEFAULTS_EDGE) = Unweighted.
Proof.
  intros options.
  assert (Hnone : supplied None "getEdgeWeight" = VUndefined) by reflexivity.
  destruct (C1_strategy_selection None) as ((_ & HN) & _ & Hdefault & _).
  destruct (C1_strategy_selection options) as (_ & (_ & HE) & _ & _).
  split; [exact Hnone|].
  split; [exact (eq_trans HN (Hdefault Hnone)) | exact HE].
Defined.

(** C8.  For every first argument that is not a graph, and whatever the
    options and the library of indexers, each of the four exported functions
    throws the invalid-graph error and leaves the argument as it was: no
    option is resolved and no factory is called, since the completion does
    not depend on them (it is the invalid-graph error even when the
    factories would throw another one). *)
Theorem C8_invalid_graph_throws (lib : IndexedBrandes) (assign : bool)
    (graph : input) (options : option (gmap string value)) :
  isGraph graph = false →
  abstractBetweennessCentrality lib assign graph options
  = (graph, Throw invalid_graph) ∧
  abstractEdgeBetweennessCentrality lib assign graph options
  = (graph, Throw invalid_graph).
Proof.
  intros Hgraph.
  unfold abstractBetweennessCentrality, abstractEdgeBetweennessCentrality.
  by rewrite Hgraph.
Qed.

Lemma C8_invalid_graph_throws_witness :
  isGraph (NotAGraph (VStr "graph")) = false ∧
  betweennessCentrality_assign Example.probe (NotAGraph (VStr "graph")) None
  = (NotAGraph (VStr "graph"), Throw invalid_graph) ∧
  edgeBetweennessCentrality Example.probe (NotAGraph (VStr "graph")) None
  = (NotAGraph (VStr "graph"), Throw invalid_graph).
Proof.
  assert (H : isGraph (NotAGraph (VStr "graph")) = false) by reflexivity.
  split; [exact H|].
  split.
  - exact (proj1 (C8_invalid_graph_throws Example.probe true _ None H)).
  - exact (proj2 (C8_invalid_graph_throws Example.probe false _ None H)).
Defined.

(* ================================================================== *)
(** * Rescaling the node totals                                         *)
(* ================================================================== *)

Lemma scale_loop_from n i scale (centralities : list float) :
  i + n = length centralities →
  scale_loop n i scale centralities
  = take i centralities ++ ((λ x, x * scale)%float <$> drop i centralities).
Proof.
  revert i centralities.
  induction n as [|n IH]; intros i centralities Hlen; simpl.
  - rewrite take_ge, drop_ge by lia. by rewrite app_nil_r.
  - destruct (lookup_lt_is_Some_2 centralities i) as [x Hx]; [lia|].
    assert (Hmul : Float64Array.mul centralities i scale
                   = <[i := (x * scale)%float]> centralities).
    { unfold Float64Array.mul, Float64Array.set, Float64Array.get.
      by rewrite Hx. }
    rewrite Hmul, IH by (rewrite length_insert; lia).
    rewrite (take_S_r _ _ (x * scale)%float)
      by (apply list_lookup_insert_eq; lia).
    rewrite take_insert_ge, drop_insert_lt by lia.
    rewrite (drop_S _ _ _ Hx), fmap_cons, <- app_assoc. done.
Qed.

Lemma scale_loop_all scale (centralities : list float) :
  scale_loop (length centralities) 0 scale centralities
  = (λ x, x * scale)%float <$> centralities.
Proof. by rewrite scale_loop_from. Qed.

Lemma node_totals_length lib graph options r :
  node_totals lib graph options = Ok r → length r.2 = order graph.
Proof.
  unfold node_totals, mbind, result_bind.
  destruct (create lib graph _) as [brandes|]; [|done].
  destruct (node_sources _ _ _ _) as [state|] eqn:E; [|done].
  intros [= <-]. simpl.
  apply length_node_sources in E as [_ E]. simpl in E.
  by rewrite E, length_make.
Qed.

Lemma node_rescale_scaling normalized N ty (centralities : list float) :
  length centralities = N →
  node_rescale normalized N ty centralities
  = Spec.node_scaling (truthy normalized) N ty <$> centralities.
Proof.
  intros <-. unfold node_rescale, node_scale, Spec.node_scaling.
  destruct (truthy normalized).
  - destruct (Nat.leb_spec (length centralities) 2); case_decide; try lia.
    + by rewrite list_fmap_id.
    + by rewrite scale_loop_all.
  - destruct ty; case_decide; try done.
    + by rewrite list_fmap_id.
    + by rewrite scale_loop_all.
    + by rewrite list_fmap_id.
Qed.

(** C4.  The array the node function hands to its projector is the array of
    the sums over all sources with every entry rescaled by
    [Spec.node_scaling]: when [normalized] is truthy, multiplied by
    [1 / ((N-1)(N-2))] if [N > 2] and left as it is otherwise; when
    [normalized] is falsy, multiplied by [0.5] if the graph is undirected and
    left as it is otherwise. *)
Theorem C4_node_rescaling (lib : IndexedBrandes) (graph : Graph)
    (options : gmap string value) :
  node_centralities lib graph options
  = (λ r : Indexer * list float,
       (r.1,
        Spec.node_scaling (truthy (prop options "normalized")) (order graph)
          (type graph) <$> r.2))
    <$> node_totals lib graph options.
Proof.
  unfold node_centralities, mbind, result_bind, fmap at 1, result_fmap.
  destruct (node_totals lib graph options) as [[brandes totals]|] eqn:E;
    [|done].
  apply node_totals_length in E. simpl in *.
  by rewrite node_rescale_scaling.
Qed.

(* ================================================================== *)
(** * The edge totals: what the loops keep                              *)
(* ================================================================== *)

Section edge_invariant.
(** A property of the edge totals that no credit breaks. *)
Context (Q : gmap string float → Prop).
Hypothesis Q_add : ∀ o k x, Q o → Q (Obj.add o k x).

Lemma edge_body_invariant graph nodes sigma c w v state state' :
  Q state.2 →
  edge_body graph nodes sigma c w v state = Ok state' →
  Q state'.2.
Proof using Q_add.
  intros H. unfold edge_body, mbind, result_bind.
  destruct (edge graph _ _) as [vw|]; [|done].
  destruct (edge graph _ _) as [wv|]; [|done].
  intros [= <-]. simpl. destruct vw; by apply Q_add.
Qed.

Lemma edge_predecessors_invariant n j Pw graph nodes sigma c w state state' :
  Q state.2 →
  edge_predecessors n j Pw graph nodes sigma c w state = Ok state' →
  Q state'.2.
Proof using Q_add.
  revert j state. induction n as [|n IH]; intros j state H; simpl.
  - by intros [= <-].
  - destruct (Pw !! j) as [v|]; simpl; [|by apply IH].
    destruct (edge_body _ _ _ _ _ _ _) as [state1|] eqn:E; simpl; [|done].
    apply IH. by eapply edge_body_invariant; [|exact E].
Qed.

Lemma edge_accumulate_invariant n items P sigma graph nodes state state' :
  Q state.2 →
  edge_accumulate n items P sigma graph nodes state = Ok state' →
  Q state'.2.
Proof using Q_add.
  revert state. induction n as [|n IH]; intros state H; simpl.
  - by intros [= <-].
  - destruct (items !! n) as [w|]; [|done].
    destruct (P !! w) as [Pw|]; [|done].
    destruct (edge_predecessors _ _ _ _ _ _ _ _ _) as [state1|] eqn:E;
      simpl; [|done].
    apply IH. by eapply edge_predecessors_invariant; [|exact E].
Qed.

Lemma edge_sources_invariant n i graph brandes state state' :
  Q state.2 →
  edge_sources n i graph brandes state = Ok state' →
  Q state'.2.
Proof using Q_add.
  revert i state. induction n as [|n IH]; intros i state H; simpl.
  - by intros [= <-].
  - unfold edge_source, mbind, result_bind at 1.
    destruct (run brandes i) as [t|]; simpl; [|done].
    destruct (edge_accumulate _ _ _ _ _ _ _) as [state1|] eqn:E; [|done].
    apply IH. by eapply edge_accumulate_invariant; [|exact E].
Qed.
End edge_invariant.

(** What a write leaves at another key, and what it never creates. *)
Lemma set_lookup_ne {A : Type} (o : gmap string A) k x e :
  k ≠ e → Obj.set o k x !! e = o !! e.
Proof.
  intros Hne. unfold Obj.set. case_decide; [done|]. by apply lookup_insert_ne.
Qed.

Lemma set_lookup_eq {A : Type} (o : gmap string A) k x :
  k ≠ "__proto__" → Obj.set o k x !! k = Some x.
Proof.
  intros Hk. unfold Obj.set. rewrite decide_False by done.
  apply lookup_insert_eq.
Qed.

Lemma set_lookup_proto {A : Type} (o : gmap string A) k x :
  Obj.set o k x !! "__proto__" = o !! "__proto__".
Proof.
  unfold Obj.set. case_decide as Hk; [done|]. by apply lookup_insert_ne.
Qed.

Lemma add_keeps_present (e : string) (o : gmap string float) (k : string)
    (x : float) :
  is_Some (o !! e) → is_Some (Obj.add o k x !! e).
Proof.
  intros He. unfold Obj.add, Obj.set. case_decide; [done|].
  destruct (decide (k = e)) as [->|Hne].
  - rewrite lookup_insert_eq. by eexists.
  - by rewrite lookup_insert_ne.
Qed.

Lemma add_keeps_proto (o : gmap string float) (k : string) (x : float) :
  o !! "__proto__" = None → Obj.add o k x !! "__proto__" = None.
Proof. intros Ho. unfold Obj.add. by rewrite set_lookup_proto. Qed.

Lemma foldl_set_zero_lookup (es : list string) (o : gmap string float) e :
  foldl (λ a e, Obj.set a e 0%float) o es !! e
  = if decide (e ∈ es ∧ e ≠ "__proto__") then Some 0%float else o !! e.
Proof.
  revert o. induction es as [|a es IH]; intros o.
  - rewrite decide_False; [done|]. intros [Hin _]. by apply elem_of_nil in Hin.
  - simpl. rewrite IH.
    destruct (decide (e ∈ es ∧ e ≠ "__proto__")) as [[Hin Hp]|Hin],
             (decide (e ∈ a :: es ∧ e ≠ "__proto__")) as [[Hin' Hp']|Hin'];
      try done.
    + exfalso. apply Hin'. split; [|done]. apply elem_of_cons. by right.
    + apply elem_of_cons in Hin' as [->|?]; [|by destruct Hin].
      by apply set_lookup_eq.
    + destruct (decide (a = e)) as [->|Hne]; [|by apply set_lookup_ne].
      destruct (decide (e = "__proto__")) as [->|Hp];
        [apply set_lookup_proto|].
      exfalso. apply Hin'. split; [|done]. apply elem_of_cons. by left.
Qed.

(** Every edge starts at [0.0], but an edge with the key [__proto__], which
    gets no total at all. *)
Lemma edge_init_lookup graph e :
  e ∈ edges graph → e ≠ "__proto__" → edge_init graph !! e = Some 0%float.
Proof.
  intros He Hp. unfold edge_init, forEachEdge.
  rewrite foldl_set_zero_lookup. by rewrite decide_True.
Qed.

Lemma edge_init_proto graph : edge_init graph !! "__proto__" = None.
Proof.
  unfold edge_init, forEachEdge. rewrite foldl_set_zero_lookup.
  rewrite decide_False; [done|]. by intros [_ ?].
Qed.

(** Every edge other than [__proto__] has a total, whatever the indexer
    returned. *)
Lemma edge_totals_present lib graph options totals e :
  edge_totals lib graph options = Ok totals →
  e ∈ edges graph → e ≠ "__proto__" → is_Some (totals !! e).
Proof.
  unfold edge_totals, mbind, result_bind.
  destruct (create lib graph _) as [brandes|]; [|done].
  destruct (edge_sources _ _ _ _ _) as [state|] eqn:E; [|done].
  intros [= <-] He Hp.
  apply (edge_sources_invariant (λ o, is_Some (o !! e))) in E; [done| |].
  - intros o k x. apply add_keeps_present.
  - simpl. rewrite edge_init_lookup by done. by eexists.
Qed.

(** No total is ever stored under [__proto__]. *)
Lemma edge_totals_proto lib graph options totals :
  edge_totals lib graph options = Ok totals → totals !! "__proto__" = None.
Proof.
  unfold edge_totals, mbind, result_bind.
  destruct (create lib graph _) as [brandes|]; [|done].
  destruct (edge_sources _ _ _ _ _) as [state|] eqn:E; [|done].
  intros [= <-].
  apply (edge_sources_invariant (λ o, o !! "__proto__" = None)) in E;
    [done| |].
  - intros o k x. apply add_keeps_proto.
  - apply edge_init_proto.
Qed.

Lemma foldl_mul_lookup (es : list string) scale (o : gmap string float) k :
  NoDup es →
  foldl (λ a e, Obj.mul a e scale) o es !! k
  = if decide (k ∈ es ∧ k ≠ "__proto__")
    then Some (to_number (o !! k) * scale)%float
    else o !! k.
Proof.
  intros Hnodup. revert o.
  induction Hnodup as [|a es Ha Hnodup IH]; intros o.
  - rewrite decide_False; [done|]. intros [Hin _]. by apply elem_of_nil in Hin.
  - simpl. rewrite IH. unfold Obj.mul, Obj.get.
    destruct (decide (k ∈ es ∧ k ≠ "__proto__")) as [[Hin Hp]|Hin],
             (decide (k ∈ a :: es ∧ k ≠ "__proto__")) as [[Hin' Hp']|Hin'];
      try done.
    + rewrite set_lookup_ne; [done|]. by intros ->.
    + exfalso. apply Hin'. split; [|done]. apply elem_of_cons. by right.
    + apply elem_of_cons in Hin' as [->|?]; [|by destruct Hin].
      by apply set_lookup_eq.
    + destruct (decide (a = k)) as [->|Hne]; [|by apply set_lookup_ne].
      destruct (decide (k = "__proto__")) as [->|Hp];
        [apply set_lookup_proto|].
      exfalso. apply Hin'. split; [|done]. apply elem_of_cons. by left.
Qed.

Lemma edge_scale_scaling normalized N ty x :
  default x ((λ scale, x * scale)%float <$> edge_scale normalized N ty)
  = Spec.edge_scaling (truthy normalized) N ty x.
Proof.
  unfold edge_scale, Spec.edge_scaling. destruct (truthy normalized).
  - destruct (Nat.leb_spec N 1); case_decide; (done || lia).
  - destruct ty; by case_decide.
Qed.

Lemma edge_rescale_on_edges graph normalized N ty totals :
  NoDup (edges graph) →
  (∀ e, e ∈ edges graph → e ≠ "__proto__" → is_Some (totals !! e)) →
  totals !! "__proto__" = None →
  edge_rescale graph (edge_scale normalized N ty) totals
  = Spec.on_edges graph (Spec.edge_scaling (truthy normalized) N ty) totals.
Proof.
  intros Hnodup Hpresent Hproto. apply map_eq. intros k.
  unfold Spec.on_edges. rewrite map_lookup_imap.
  pose proof (edge_scale_scaling normalized N ty) as Hscale.
  unfold edge_rescale, forEachEdge.
  destruct (edge_scale normalized N ty) as [scale|]; simpl in Hscale.
  - rewrite foldl_mul_lookup by done.
    destruct (decide (k ∈ edges graph ∧ k ≠ "__proto__")) as [[Hk Hp]|Hk].
    + destruct (Hpresent k Hk Hp) as [x Hx]. rewrite Hx. simpl.
      rewrite decide_True by done. by rewrite Hscale.
    + destruct (totals !! k) as [x|] eqn:Hx; simpl; [|done].
      rewrite decide_False; [done|]. intros Hin. apply Hk. split; [done|].
      intros ->. congruence.
  - destruct (totals !! k) as [x|]; simpl; [|done].
    rewrite <- Hscale. by case_decide.
Qed.

(** C5.  The mapping the edge function ends with is the mapping of the sums
    over all sources in which the total of every edge of the graph (each
    enumerated once) is rescaled by [Spec.edge_scaling]: when [normalized] is
    truthy, multiplied by [1 / (N(N-1))] if [N > 1] and left as it is
    otherwise; when [normalized] is falsy, multiplied by [0.5] if the graph
    is undirected and left as it is otherwise. *)
Theorem C5_edge_rescaling (lib : IndexedBrandes) (graph : Graph)
    (options : gmap string value) :
  NoDup (edges graph) →
  edge_centralities lib graph options
  = Spec.on_edges graph
      (Spec.edge_scaling (truthy (prop options "normalized")) (order graph)
         (type graph))
    <$> edge_totals lib graph options.
Proof.
  intros Hnodup.
  unfold edge_centralities, mbind, result_bind, fmap at 1, result_fmap.
  destruct (edge_totals lib graph options) as [totals|] eqn:E; [|done].
  f_equal. apply edge_rescale_on_edges; [done| |].
  - intros e He Hp. by eapply edge_totals_present.
  - by eapply edge_totals_proto.
Qed.

Lemma C5_edge_rescaling_witness :
  let graph := Example.undirected_path in
  let lib := Example.lib_of Example.undirected_path_brandes in
  let options : gmap string value := <["normalized" := VBool false]> ∅ in
  NoDup (edges graph) ∧
  edge_centralities lib graph options
  = Spec.on_edges graph (Spec.edge_scaling false 3 undirected)
    <$> edge_totals lib graph options.
Proof.
  intros graph lib options.
  assert (H : NoDup (edges graph))
    by (apply (bool_decide_unpack _); vm_compute; exact I).
  split; [exact H|].
  exact (C5_edge_rescaling lib graph options H).
Defined.

(* ================================================================== *)
(** * Edges that receive nothing                                        *)
(* ================================================================== *)

Section untouched.
Context (graph : Graph) (nodes : list string) (e : string).

Lemma edge_credits_untouched sigma c w Pw state :
  (∀ v, v ∈ Pw → Obj.key (Spec.resolve_edge graph nodes v w) ≠ e) →
  (foldl (Fold.edge_credit graph nodes sigma c w) state Pw).2 !! e
  = state.2 !! e.
Proof.
  revert state. induction Pw as [|v Pw IH]; intros state Hne; [done|].
  simpl. rewrite IH.
  - unfold Fold.edge_credit, Obj.add. simpl.
    apply set_lookup_ne, Hne, elem_of_cons. by left.
  - intros v' Hv'. apply Hne, elem_of_cons. by right.
Qed.

Lemma edge_pops_untouched P sigma ws state :
  e ∉ (w ← ws; v ← default [] (P !! w);
       [Obj.key (Spec.resolve_edge graph nodes v w)]) →
  (foldl (Fold.edge_pop graph nodes P sigma) state ws).2 !! e = state.2 !! e.
Proof.
  revert state. induction ws as [|w ws IH]; intros state Hne; [done|].
  rewrite bind_cons in Hne. apply not_elem_of_app in Hne as [Hw Hws].
  simpl. rewrite IH by done.
  unfold Fold.edge_pop. apply edge_credits_untouched.
  intros v Hv Heq. apply Hw, list_elem_of_bind.
  exists v. split; [|done]. rewrite Heq. apply list_elem_of_singleton. done.
Qed.
End untouched.

(** When every round completes, the loop over the sources returns, and the
    edges it never credits keep their totals. *)
Lemma edge_sources_returns n i graph brandes state e :
  Forall (λ i, match run brandes i with
               | Ok t => edge_round_wf graph (index_nodes brandes) i t
               | Throw _ => False
               end) (seq i n) →
  ∃ state', edge_sources n i graph brandes state = Ok state' ∧
    (Forall (λ i, match run brandes i with
                  | Ok t => e ∉ credited graph (index_nodes brandes) t
                  | Throw _ => True
                  end) (seq i n) →
     state'.2 !! e = state.2 !! e).
Proof.
  revert i state. induction n as [|n IH]; intros i state Hwf; simpl.
  - by eexists.
  - simpl in Hwf. apply Forall_cons in Hwf as [Hi Hwf].
    unfold edge_source, mbind, result_bind at 1.
    destruct (run brandes i) as [t|] eqn:Ht; [|done].
    destruct Hi as [[Hsize Hnodes] [Hmulti Hknown]]. simpl.
    rewrite edge_accumulate_take by done.
    destruct (IH (S i) (foldl (Fold.edge_pop graph (index_nodes brandes)
                                 (tP t) (tsigma t))
                          (reset_delta (tS t) state.1, state.2)
                          (reverse (take (size (tS t)) (items (tS t))))) Hwf)
      as (state' & Hstate' & Hkeep).
    exists state'. split; [done|].
    intros [Hi' Hnc]%Forall_cons. rewrite Ht in Hi'.
    rewrite Hkeep by done.
    by rewrite (edge_pops_untouched graph (index_nodes brandes) e).
Qed.

(** The rescaling drops no entry, and creates none under [__proto__]. *)
Lemma edge_rescale_present graph scale totals e :
  is_Some (totals !! e) → is_Some (edge_rescale graph scale totals !! e).
Proof.
  destruct scale as [scale|]; [|done]. unfold edge_rescale, forEachEdge.
  revert totals. induction (edges graph) as [|a es IH]; intros totals He; [done|].
  simpl. apply IH. unfold Obj.mul, Obj.set. case_decide; [done|].
  destruct (decide (a = e)) as [->|Hne].
  - rewrite lookup_insert_eq. by eexists.
  - by rewrite lookup_insert_ne.
Qed.

Lemma edge_rescale_proto graph scale totals :
  totals !! "__proto__" = None →
  edge_rescale graph scale totals !! "__proto__" = None.
Proof.
  destruct scale as [scale|]; [|done]. unfold edge_rescale, forEachEdge.
  revert totals. induction (edges graph) as [|a es IH]; intros totals He; [done|].
  simpl. apply IH. unfold Obj.mul. by rewrite set_lookup_proto.
Qed.

(** C6.  The undirected path A - B - C whose edge between A and B has the key
    [__proto__]: the graph enumerates that edge, but the initialization
    leaves no total for it ([edgeCentralities['__proto__'] = 0.0] stores
    nothing in a plain object) and neither does any credit: the mapping
    returned holds the entry of the edge BC alone, where the claim requires
    an entry for every edge (here [2] for each of the two edges, as on the
    same path with the keys AB and BC). *)
Theorem C6_proto_edge_absent :
  let lib := Example.lib_of Example.undirected_path_brandes in
  let raw : option (gmap string value) :=
    Some (<["normalized" := VBool false]> ∅) in
  let mapping : gmap string float := <["BC" := 2%float]> ∅ in
  "__proto__" ∈ edges Example.proto_path ∧
  edge_init Example.proto_path = <["BC" := 0%float]> ∅ ∧
  edgeBetweennessCentrality lib (AGraph Example.proto_path) raw
  = (AGraph Example.proto_path, Ok (Some mapping)) ∧
  mapping !! "__proto__" = None ∧
  edgeBetweennessCentrality lib (AGraph Example.undirected_path) raw
  = (AGraph Example.undirected_path,
     Ok (Some (<["AB" := 2%float]> (<["BC" := 2%float]> ∅)))).
Proof.
  intros lib raw mapping.
  split; [apply (bool_decide_unpack _); vm_compute; exact I|].
  repeat split; vm_compute; reflexivity.
Qed.

(* ================================================================== *)
(** * Normalized against raw output                                     *)
(* ================================================================== *)

Lemma index_collect_fmap brandes (f : float → float) results :
  index_collect brandes (f <$> results) = f <$> index_collect brandes results.
Proof.
  unfold index_collect.
  assert (H : ∀ (ns : list string) (l : list float) (o : gmap string float),
             foldl (λ o p, Obj.set o p.1 p.2) (f <$> o) (zip ns (f <$> l))
             = f <$> foldl (λ o p, Obj.set o p.1 p.2) o (zip ns l)).
  { induction ns as [|n ns IH]; intros [|x l] o; simpl; try done.
    rewrite <- IH. f_equal. unfold Obj.set.
    case_decide; [done | by rewrite fmap_insert]. }
  by rewrite <- H, fmap_empty.
Qed.

Lemma on_edges_unchanged graph (f : float → float) totals :
  (∀ x, f x = x) → Spec.on_edges graph f totals = totals.
Proof.
  intros Hf. apply map_eq. intros k.
  unfold Spec.on_edges. rewrite map_lookup_imap.
  destruct (totals !! k) as [x|]; simpl; [|done].
  case_decide; by rewrite ?Hf.
Qed.

Lemma strategy_ext (o1 o2 : gmap string value) :
  prop o1 "getEdgeWeight" = prop o2 "getEdgeWeight" → strategy o1 = strategy o2.
Proof. unfold strategy. by intros ->. Qed.

Lemma node_totals_ext lib graph (o1 o2 : gmap string value) :
  strategy o1 = strategy o2 →
  node_totals lib graph o1 = node_totals lib graph o2.
Proof. unfold node_totals. by intros ->. Qed.

Lemma edge_totals_ext lib graph (o1 o2 : gmap string value) :
  strategy o1 = strategy o2 →
  edge_totals lib graph o1 = edge_totals lib graph o2.
Proof. unfold edge_totals. by intros ->. Qed.

(** Two option objects that differ at most in [normalized] select the same
    strategy. *)
Lemma resolved_strategy_ext (on off : option (gmap string value)) defaults :
  defaults !! "getEdgeWeight" = Some (VStr "weight") →
  (∀ k, k ≠ "normalized" → supplied on k = supplied off k) →
  strategy (resolveDefaults on defaults) = strategy (resolveDefaults off defaults).
Proof.
  intros Hdef Hsame. apply strategy_ext.
  rewrite !(resolveDefaults_prop _ _ _ _ Hdef). by rewrite Hsame.
Qed.

(** C9, as stated, fails on undirected graphs, whose raw output is already
    halved.  On the undirected path A - B - C the raw output gives B the
    value [1]; the documented factor for [N = 3] is [1 / ((3-1)(3-2)) = 0.5];
    and the normalized output gives B the value [1], not [0.5]. *)
Lemma C9_counterexample :
  let lib := Example.lib_of Example.undirected_path_brandes in
  let graph := AGraph Example.undirected_path in
  let raw := Some (<["normalized" := VBool false]> ∅) in
  let normalized := Some (<["normalized" := VBool true]> ∅) in
  let raw_output : gmap string float :=
    <["A" := 0%float]> (<["B" := 1%float]> (<["C" := 0%float]> ∅)) in
  let normalized_output : gmap string float :=
    <["A" := 0%float]> (<["B" := 1%float]> (<["C" := 0%float]> ∅)) in
  (betweennessCentrality lib graph raw).2 = Ok (Some raw_output) ∧
  (betweennessCentrality lib graph normalized).2 = Ok (Some normalized_output) ∧
  Spec.node_scaling true 3 undirected 1 = 0.5%float ∧
  (Spec.node_scaling true 3 undirected <$> raw_output) !! "B" = Some 0.5%float ∧
  normalized_output !! "B" = Some 1%float ∧
  Spec.node_scaling true 3 undirected <$> raw_output ≠ normalized_output.
Proof.
  intros lib graph raw normalized raw_output normalized_output.
  repeat (split; [vm_compute; reflexivity|]).
  intros H. apply (f_equal (λ o : gmap string float, o !! "B")) in H.
  vm_compute in H. discriminate.
Qed.

(** C9, amended.  For every graph that is not undirected (its edges each
    enumerated once), and two option objects that agree everywhere but on
    [normalized], truthy in one and falsy in the other: the mapping the node
    function returns under the first is the one it returns under the second
    with every entry rescaled by the documented factor ([1 / ((N-1)(N-2))]
    for [N > 2], none otherwise); and the mapping the edge function returns
    under the first is the one it returns under the second with the entry of
    every edge rescaled by the documented factor ([1 / (N(N-1))] for
    [N > 1], none otherwise).  An error is thrown under one exactly when it
    is thrown under the other. *)
Theorem C9_normalization_consistency (lib : IndexedBrandes) (graph : Graph)
    (on off : option (gmap string value)) :
  type graph ≠ undirected →
  NoDup (edges graph) →
  (∀ k, k ≠ "normalized" → supplied on k = supplied off k) →
  truthy (or_default (supplied on "normalized") (VBool true)) = true →
  truthy (or_default (supplied off "normalized") (VBool true)) = false →
  let N := order graph in
  (betweennessCentrality lib (AGraph graph) on).2
  = on_mapping (fmap (Spec.node_scaling true N (type graph)))
      (betweennessCentrality lib (AGraph graph) off).2 ∧
  (edgeBetweennessCentrality lib (AGraph graph) on).2
  = on_mapping (Spec.on_edges graph (Spec.edge_scaling true N (type graph)))
      (edgeBetweennessCentrality lib (AGraph graph) off).2.
Proof.
  intros Hty Hnodup Hsame Hon Hoff N. split.
  - unfold betweennessCentrality, abstractBetweennessCentrality. simpl.
    unfold node_centralities, mbind, result_bind.
    rewrite !(resolveDefaults_prop _ DEFAULTS_NODE "normalized" (VBool true))
      by reflexivity.
    rewrite (node_totals_ext lib graph _ (resolveDefaults off DEFAULTS_NODE))
      by (by apply resolved_strategy_ext).
    destruct (node_totals lib graph _) as [[brandes totals]|] eqn:E;
      simpl; [|done].
    apply node_totals_length in E.
    rewrite (node_rescale_scaling _ N (type graph) totals E).
    rewrite (node_rescale_scaling _ N (type graph) totals E).
    rewrite Hon, Hoff. do 2 f_equal. rewrite <- index_collect_fmap. f_equal.
    rewrite <- list_fmap_compose. apply list_fmap_ext. intros _ x _. simpl.
    unfold Spec.node_scaling. by rewrite (decide_False _ _ Hty).
  - unfold edgeBetweennessCentrality, abstractEdgeBetweennessCentrality. simpl.
    unfold edge_centralities, mbind, result_bind.
    rewrite !(resolveDefaults_prop _ DEFAULTS_EDGE "normalized" (VBool true))
      by reflexivity.
    rewrite (edge_totals_ext lib graph _ (resolveDefaults off DEFAULTS_EDGE))
      by (by apply resolved_strategy_ext).
    destruct (edge_totals lib graph _) as [totals|] eqn:E; simpl; [|done].
    pose proof (λ e, edge_totals_present lib graph _ totals e E) as Hpresent.
    pose proof (edge_totals_proto lib graph _ totals E) as Hproto.
    rewrite (edge_rescale_on_edges graph _ N (type graph) totals Hnodup
               Hpresent Hproto).
    rewrite (edge_rescale_on_edges graph _ N (type graph) totals Hnodup
               Hpresent Hproto).
    rewrite Hon, Hoff. do 2 f_equal.
    rewrite (on_edges_unchanged graph (Spec.edge_scaling false N (type graph)));
      [done|].
    intros x. unfold Spec.edge_scaling. by rewrite decide_False.
Qed.

Lemma C9_normalization_consistency_witness :
  let lib := Example.lib_of Example.directed_path_brandes in
  let graph := Example.directed_path in
  let on : option (gmap string value) := None in
  let off : option (gmap string value) :=
    Some (<["normalized" := VBool false]> ∅) in
  (type graph ≠ undirected ∧
   NoDup (edges graph) ∧
   (∀ k, k ≠ "normalized" → supplied on k = supplied off k) ∧
   truthy (or_default (supplied on "normalized") (VBool true)) = true ∧
   truthy (or_default (supplied off "normalized") (VBool true)) = false) ∧
  (betweennessCentrality lib (AGraph graph) on).2
  = on_mapping (fmap (Spec.node_scaling true 3 directed))
      (betweennessCentrality lib (AGraph graph) off).2 ∧
  (edgeBetweennessCentrality lib (AGraph graph) on).2
  = on_mapping (Spec.on_edges graph (Spec.edge_scaling true 3 directed))
      (edgeBetweennessCentrality lib (AGraph graph) off).2.
Proof.
  intros lib graph on off.
  assert (H1 : type graph ≠ undirected) by discriminate.
  assert (H2 : NoDup (edges graph))
    by (apply (bool_decide_unpack _); vm_compute; exact I).
  assert (H3 : ∀ k, k ≠ "normalized" → supplied on k = supplied off k).
  { intros k Hk. unfold supplied, prop, on, off. simpl.
    by rewrite lookup_insert_ne. }
  assert (H4 : truthy (or_default (supplied on "normalized") (VBool true)) = true)
    by (vm_compute; reflexivity).
  assert (H5 : truthy (or_default (supplied off "normalized") (VBool true)) = false)
    by (vm_compute; reflexivity).
  split; [exact (conj H1 (conj H2 (conj H3 (conj H4 H5))))|].
  exact (C9_normalization_consistency lib graph on off H1 H2 H3 H4 H5).
Defined.

(* ================================================================== *)
(** * Beyond the claims: the reset, as the code performs it             *)
(* ================================================================== *)

Lemma foldl_zero_lookup (L : list nat) (delta : list float) k :
  foldl (λ delta k, <[k := 0%float]> delta) delta L !! k
  = if decide (k ∈ L) then (λ _, 0%float) <$> delta !! k else delta !! k.
Proof.
  revert delta. induction L as [|a L IH]; intros delta.
  - by rewrite decide_False by apply not_elem_of_nil.
  - simpl. rewrite IH.
    assert (Ha : ((λ _, 0%float) <$> <[a := 0%float]> delta !! k)
                 = (λ _ : float, 0%float) <$> delta !! k).
    { destruct (decide (a = k)) as [->|Hne].
      - destruct (delta !! k) as [x|] eqn:Hk.
        + rewrite list_lookup_insert_eq; [done|]. by eapply lookup_lt_Some.
        + rewrite list_insert_ge; [by rewrite Hk|]. by apply lookup_ge_None.
      - by rewrite list_lookup_insert_ne. }
    destruct (decide (k ∈ L)) as [Hin|Hin],
             (decide (k ∈ a :: L)) as [Hin'|Hin']; try done.
    + exfalso. apply Hin', elem_of_cons. by right.
    + apply elem_of_cons in Hin' as [->|?]; [|done].
      destruct (delta !! a) as [x|] eqn:Hk.
      * rewrite list_lookup_insert_eq; [done|]. by eapply lookup_lt_Some.
      * rewrite list_insert_ge; [by rewrite Hk|]. by apply lookup_ge_None.
    + rewrite list_lookup_insert_ne; [done|].
      intros ->. apply Hin', elem_of_cons. by left.
Qed.

(** X1.  What the reset loop does, for every stack and every [delta]: the
    entries of [delta] at the indices held in [items[1]], ..., [items[size]]
    (those of these slots the buffer has) become [0], and every other entry,
    that at [items[0]] included unless the node is held again further up,
    keeps its value; the array keeps its length. *)
Theorem X1_reset_loop_effect (stack : FixedStack) (delta : list float)
    (k : nat) :
  reset_delta stack delta !! k
  = (if decide (k ∈ take (size stack) (drop 1 (items stack)))
     then (λ _, 0%float) <$> delta !! k
     else delta !! k) ∧
  length (reset_delta stack delta) = length delta.
Proof.
  split.
  - unfold reset_delta. rewrite reset_loop_visits by done.
    replace (S (size stack - size stack)) with 1 by lia.
    apply foldl_zero_lookup.
  - apply length_reset_loop.
Qed.

(* ================================================================== *)
(** * Beyond the claims: what a round leaves alone                      *)
(* ================================================================== *)

Lemma node_accumulate_frame n items P sigma i delta centralities r k :
  node_accumulate n items P sigma i delta centralities = Ok r →
  k = i ∨ k ∉ take n items →
  r.2 !! k = centralities !! k.
Proof.
  revert delta centralities.
  induction n as [|n IH]; intros delta centralities; simpl.
  - by intros [= <-] _.
  - destruct (items !! n) as [w|] eqn:Hw; [|done].
    destruct (P !! w) as [Pw|]; [|done].
    intros Hr Hk. rewrite (IH _ _ Hr).
    + case_decide as Hwi; [done|].
      unfold Float64Array.add, Float64Array.set.
      apply list_lookup_insert_ne.
      destruct Hk as [->|Hk]; [done|].
      intros ->. apply Hk. rewrite (take_S_r _ _ _ Hw).
      apply elem_of_app. right. by apply list_elem_of_singleton.
    + destruct Hk as [->|Hk]; [by left|]. right.
      intros Hin. apply Hk. rewrite (take_S_r _ _ _ Hw).
      apply elem_of_app. by left.
Qed.

(** X2.  A round of the node accumulator that completes leaves the total of
    its own source as it was, and likewise the total of every node that is
    not on the stack of its traversal (the nodes the source does not
    reach). *)
Theorem X2_node_round_frame (brandes : Indexer) (i : nat) (t : Traversal)
    (delta centralities : list float) (r : list float * list float) (k : nat) :
  run brandes i = Ok t →
  node_source brandes i (delta, centralities) = Ok r →
  k = i ∨ k ∉ take (size (tS t)) (items (tS t)) →
  r.2 !! k = centralities !! k.
Proof.
  intros Ht. unfold node_source, mbind, result_bind. rewrite Ht. simpl.
  apply node_accumulate_frame.
Qed.

Lemma X2_node_round_frame_witness :
  let brandes := Example.directed_path_brandes in
  let t := Example.traversal [1; 2; 2] 2 [[]; []; [1]] [0; 1; 1]%float in
  let before := ([0; 0; 0]%float, [0; 1; 0]%float) in
  let after := ([0; 1; 0]%float, [0; 1; 0]%float) in
  (run brandes 1 = Ok t ∧
   node_source brandes 1 before = Ok after ∧
   0 ∉ take (size (tS t)) (items (tS t))) ∧
  after.2 !! 1 = before.2 !! 1 ∧ after.2 !! 0 = before.2 !! 0.
Proof.
  intros brandes t before after.
  assert (H1 : run brandes 1 = Ok t) by reflexivity.
  assert (H2 : node_source brandes 1 before = Ok after)
    by (vm_compute; reflexivity).
  assert (H3 : 0 ∉ take (size (tS t)) (items (tS t)))
    by (apply (bool_decide_unpack _); vm_compute; exact I).
  split; [exact (conj H1 (conj H2 H3))|].
  split.
  - exact (X2_node_round_frame brandes 1 t _ _ after 1 H1 H2 (or_introl eq_refl)).
  - exact (X2_node_round_frame brandes 1 t _ _ after 0 H1 H2 (or_intror H3)).
Defined.

(* ================================================================== *)
(** * Beyond the claims: the two accumulators share their [delta]       *)
(* ================================================================== *)

Lemma edge_credits_delta graph names sigma c w Pw delta totals :
  (foldl (Fold.edge_credit graph names sigma c w) (delta, totals) Pw).1
  = Fold.credit_predecessors sigma c Pw delta.
Proof.
  unfold Fold.credit_predecessors. revert delta totals.
  induction Pw as [|v Pw IH]; intros delta totals; [done|].
  simpl. apply IH.
Qed.

Lemma accumulate_same_delta n items P sigma graph names i delta totals
    centralities :
  multi graph = false →
  links_known graph names P (take n items) →
  same_delta
    (edge_accumulate n items P sigma graph names (delta, totals))
    (node_accumulate n items P sigma i delta centralities).
Proof.
  intros Hmulti. revert delta totals centralities.
  induction n as [|n IH]; intros delta totals centralities Hknown; simpl;
    [done|].
  destruct (items !! n) as [w|] eqn:Hw; [|done].
  unfold links_known in Hknown.
  rewrite (take_S_r _ _ _ Hw), Forall_app, Forall_singleton in Hknown.
  destruct Hknown as [Hknown Hlinks].
  destruct (P !! w) as [Pw|]; [|done]. simpl in Hlinks.
  rewrite edge_predecessors_all, node_predecessors_all by done. simpl.
  pose proof (edge_credits_delta graph names sigma
                (coefficient_of delta sigma w) w Pw delta totals) as Hdelta.
  destruct (foldl _ _ _) as [delta' totals']. simpl in Hdelta. subst delta'.
  by apply IH.
Qed.

(** X3.  The edge accumulator runs the same dependency recursion as the node
    accumulator: over any number of rounds, from the same [delta], with any
    totals and centralities, on a graph whose lookups return in every round
    (no multigraph, and the nodes of every predecessor link are nodes of
    the graph), the two loops over the sources either both complete, with
    the same [delta], or both throw, the same error. *)
Theorem X3_accumulators_share_delta (n i : nat) (graph : Graph)
    (brandes : Indexer) (delta : list float) (totals : gmap string float)
    (centralities : list float) :
  (∀ j t, i ≤ j < i + n → run brandes j = Ok t →
          lookups_return graph (index_nodes brandes) t) →
  same_delta
    (edge_sources n i graph brandes (delta, totals))
    (node_sources n i brandes (delta, centralities)).
Proof.
  revert i delta totals centralities.
  induction n as [|n IH]; intros i delta totals centralities Hlookups; simpl;
    [done|].
  unfold edge_source, node_source, mbind, result_bind.
  destruct (run brandes i) as [t|] eqn:Ht; simpl; [|done].
  destruct (Hlookups i t ltac:(lia) Ht) as [Hmulti Hknown].
  pose proof (accumulate_same_delta (size (tS t)) (items (tS t)) (tP t)
                (tsigma t) graph (index_nodes brandes) i
                (reset_delta (tS t) delta) totals centralities Hmulti Hknown)
    as Hround.
  destruct (edge_accumulate _ _ _ _ _ _ _) as [[d1 totals1]|e1],
           (node_accumulate _ _ _ _ _ _ _) as [[d2 centralities2]|e2];
    simpl in Hround; try done.
  subst d2. apply IH. intros j t' Hj. apply Hlookups. lia.
Qed.

Lemma X3_accumulators_share_delta_witness :
  let graph := Example.undirected_path in
  let brandes := Example.undirected_path_brandes in
  let zeroes := [0; 0; 0]%float in
  let totals : gmap string float :=
    <["AB" := 0%float]> (<["BC" := 0%float]> ∅) in
  (∀ j t, 0 ≤ j < 0 + 3 → run brandes j = Ok t →
          lookups_return graph (index_nodes brandes) t) ∧
  same_delta
    (edge_sources 3 0 graph brandes (zeroes, totals))
    (node_sources 3 0 brandes (zeroes, zeroes)) ∧
  edge_sources 3 0 graph brandes (zeroes, totals)
  = Ok ([0; 1; 2]%float, <["AB" := 4%float]> (<["BC" := 4%float]> ∅)) ∧
  node_sources 3 0 brandes (zeroes, zeroes)
  = Ok ([0; 1; 2]%float, [0; 2; 0]%float).
Proof.
  intros graph brandes zeroes totals.
  assert (H : ∀ j t, 0 ≤ j < 0 + 3 → run brandes j = Ok t →
                     lookups_return graph (index_nodes brandes) t).
  { intros j t Hj Ht.
    destruct j as [|[|[|j]]]; [| | |lia]; injection Ht as <-;
      apply (bool_decide_unpack _); vm_compute; exact I. }
  split; [exact H|].
  split; [exact (X3_accumulators_share_delta 3 0 graph brandes zeroes totals
                   zeroes H)|].
  split; vm_compute; reflexivity.
Defined.

(* ================================================================== *)
(** * Beyond the claims: the first error of a call                      *)
(* ================================================================== *)

Lemma node_accumulate_returns n items P sigma i delta centralities :
  n ≤ length items →
  Forall (λ w, w < length P) (take n items) →
  ∃ r, node_accumulate n items P sigma i delta centralities = Ok r.
Proof.
  revert delta centralities.
  induction n as [|n IH]; intros delta centralities Hn Hall; simpl.
  - by eexists.
  - destruct (lookup_lt_is_Some_2 items n) as [w Hw]; [lia|].
    rewrite (take_S_r _ _ _ Hw), Forall_app, Forall_singleton in Hall.
    destruct Hall as [Hall Hlast].
    destruct (lookup_lt_is_Some_2 P w) as [Pw HPw]; [done|].
    rewrite Hw, HPw. apply IH; [lia | done].
Qed.

Lemma node_accumulate_malformed n items P sigma i delta centralities :
  ¬ (n ≤ length items ∧ Forall (λ w, w < length P) (take n items)) →
  node_accumulate n items P sigma i delta centralities = Throw TypeError.
Proof.
  revert delta centralities.
  induction n as [|n IH]; intros delta centralities Hbad.
  - exfalso. apply Hbad. split; [lia | constructor].
  - simpl. destruct (items !! n) as [w|] eqn:Hw; [|done].
    destruct (P !! w) as [Pw|] eqn:HPw; [|done].
    apply IH. intros [Hn Hall]. apply Hbad. split.
    + apply lookup_lt_Some in Hw. lia.
    + rewrite (take_S_r _ _ _ Hw), Forall_app, Forall_singleton.
      split; [done|]. by eapply lookup_lt_Some.
Qed.

Lemma edge_accumulate_malformed n items P sigma graph names state :
  multi graph = false →
  links_known graph names P (take n items) →
  ¬ (n ≤ length items ∧ Forall (λ w, w < length P) (take n items)) →
  edge_accumulate n items P sigma graph names state = Throw TypeError.
Proof.
  intros Hmulti. revert state.
  induction n as [|n IH]; intros state Hknown Hbad.
  - exfalso. apply Hbad. split; [lia | constructor].
  - simpl. destruct (items !! n) as [w|] eqn:Hw; [|done].
    unfold links_known in Hknown.
    rewrite (take_S_r _ _ _ Hw), Forall_app, Forall_singleton in Hknown.
    destruct Hknown as [Hknown Hlinks].
    destruct (P !! w) as [Pw|] eqn:HPw; [|done]. simpl in Hlinks.
    rewrite edge_predecessors_all by done. simpl.
    apply IH; [done|]. intros [Hn Hall]. apply Hbad. split.
    + apply lookup_lt_Some in Hw. lia.
    + rewrite (take_S_r _ _ _ Hw), Forall_app, Forall_singleton.
      split; [done|]. by eapply lookup_lt_Some.
Qed.

Lemma node_sources_first_error n k brandes state i e :
  k ≤ i < k + n →
  (∀ j, k ≤ j < i → round_error brandes j = None) →
  round_error brandes i = Some e →
  node_sources n k brandes state = Throw e.
Proof.
  revert k state. induction n as [|n IH]; intros k state Hi Hbefore Herr;
    [lia|].
  simpl. unfold node_source, mbind, result_bind.
  destruct (decide (k = i)) as [->|Hne].
  - unfold round_error in Herr.
    destruct (run brandes i) as [t|e']; simpl; [|congruence].
    case_decide as Hwf; [done|]. injection Herr as <-.
    by rewrite (node_accumulate_malformed _ _ _ _ _ _ _ Hwf).
  - pose proof (Hbefore k ltac:(lia)) as Hk. unfold round_error in Hk.
    destruct (run brandes k) as [t|e']; simpl; [|done].
    case_decide as Hwf; [|done]. destruct Hwf as [Hsize Hnodes].
    destruct (node_accumulate_returns (size (tS t)) (items (tS t)) (tP t)
                (tsigma t) k (reset_delta (tS t) state.1) state.2 Hsize Hnodes)
      as [r ->].
    apply IH; [lia | | done]. intros j Hj. apply Hbefore. lia.
Qed.

Lemma edge_sources_first_error n k graph brandes state i e :
  k ≤ i < k + n →
  (∀ j, k ≤ j < i → round_error brandes j = None) →
  round_error brandes i = Some e →
  (∀ j t, k ≤ j ≤ i → run brandes j = Ok t →
          lookups_return graph (index_nodes brandes) t) →
  edge_sources n k graph brandes state = Throw e.
Proof.
  revert k state.
  induction n as [|n IH]; intros k state Hi Hbefore Herr Hlookups; [lia|].
  simpl. unfold edge_source, mbind, result_bind.
  destruct (decide (k = i)) as [->|Hne].
  - unfold round_error in Herr.
    destruct (run brandes i) as [t|e'] eqn:Ht; simpl; [|congruence].
    case_decide as Hwf; [done|]. injection Herr as <-.
    destruct (Hlookups i t ltac:(lia) Ht) as [Hmulti Hknown].
    by rewrite edge_accumulate_malformed.
  - pose proof (Hbefore k ltac:(lia)) as Hk. unfold round_error in Hk.
    destruct (run brandes k) as [t|e'] eqn:Ht; simpl; [|done].
    case_decide as Hwf; [|done]. destruct Hwf as [Hsize Hnodes].
    destruct (Hlookups k t ltac:(lia) Ht) as [Hmulti Hknown].
    rewrite edge_accumulate_take by done.
    apply IH; [lia | | done |].
    + intros j Hj. apply Hbefore. lia.
    + intros j t' Hj. apply Hlookups. lia.
Qed.

(** X4.  The first error of a call is the error of the call.  When the
    indexer is set up and the rounds of the sources below [i] complete, an
    error in the round of source [i < N] - the one [brandes(i)] throws, or
    the [TypeError] of a traversal whose stack overruns its buffer or holds a
    node without predecessor list - is what each of the four exported
    functions throws; the graph is left as it was, in the assign variants
    too.  For the edge function this takes a graph whose lookups return in
    the rounds up to [i] (no multigraph, and the nodes of every predecessor
    link are nodes of the graph): [graph.edge] would throw first. *)
Theorem X4_first_error_surfaces (lib : IndexedBrandes) (assign : bool)
    (graph : Graph) (options : option (gmap string value))
    (brandes : Indexer) (i : nat) (e : error) :
  create lib graph (strategy (resolveDefaults options DEFAULTS_NODE))
  = Ok brandes →
  create lib graph (strategy (resolveDefaults options DEFAULTS_EDGE))
  = Ok brandes →
  i < order graph →
  (∀ j, j < i → round_error brandes j = None) →
  round_error brandes i = Some e →
  abstractBetweennessCentrality lib assign (AGraph graph) options
  = (AGraph graph, Throw e) ∧
  ((∀ j t, j ≤ i → run brandes j = Ok t →
           lookups_return graph (index_nodes brandes) t) →
   abstractEdgeBetweennessCentrality lib assign (AGraph graph) options
   = (AGraph graph, Throw e)).
Proof.
  intros HN HE Hi Hbefore Herr. split.
  - unfold abstractBetweennessCentrality. simpl.
    unfold node_centralities, node_totals, mbind, result_bind.
    rewrite HN.
    rewrite (node_sources_first_error _ 0 brandes _ i e); [done|lia| |done].
    intros j Hj. apply Hbefore. lia.
  - intros Hlookups.
    unfold abstractEdgeBetweennessCentrality. simpl.
    unfold edge_centralities, edge_totals, mbind, result_bind.
    rewrite HE.
    rewrite (edge_sources_first_error _ 0 graph brandes _ i e);
      [done|lia| |done|].
    + intros j Hj. apply Hbefore. lia.
    + intros j t Hj. apply Hlookups. lia.
Qed.

Lemma X4_first_error_surfaces_witness :
  let brandes :=
    failing_at 1 (Error "no weight") Example.directed_path_brandes in
  let lib := Example.lib_of brandes in
  let graph := Example.directed_path in
  (create lib graph (strategy (resolveDefaults None DEFAULTS_NODE)) = Ok brandes ∧
   create lib graph (strategy (resolveDefaults None DEFAULTS_EDGE)) = Ok brandes ∧
   1 < order graph ∧
   (∀ j, j < 1 → round_error brandes j = None) ∧
   round_error brandes 1 = Some (Error "no weight") ∧
   (∀ j t, j ≤ 1 → run brandes j = Ok t →
           lookups_return graph (index_nodes brandes) t)) ∧
  betweennessCentrality_assign lib (AGraph graph) None
  = (AGraph graph, Throw (Error "no weight")) ∧
  edgeBetweennessCentrality lib (AGraph graph) None
  = (AGraph graph, Throw (Error "no weight")).
Proof.
  intros brandes lib graph.
  assert (H1 : create lib graph (strategy (resolveDefaults None DEFAULTS_NODE))
               = Ok brandes) by (vm_compute; reflexivity).
  assert (H2 : create lib graph (strategy (resolveDefaults None DEFAULTS_EDGE))
               = Ok brandes) by (vm_compute; reflexivity).
  assert (H3 : 1 < order graph) by (vm_compute; lia).
  assert (H4 : ∀ j, j < 1 → round_error brandes j = None).
  { intros j Hj. replace j with 0 by lia. vm_compute. reflexivity. }
  assert (H5 : round_error brandes 1 = Some (Error "no weight"))
    by (vm_compute; reflexivity).
  assert (H6 : ∀ j t, j ≤ 1 → run brandes j = Ok t →
                      lookups_return graph (index_nodes brandes) t).
  { intros j t Hj Ht. destruct j as [|[|j]]; [| |lia].
    - injection Ht as <-. apply (bool_decide_unpack _); vm_compute; exact I.
    - discriminate Ht. }
  split; [exact (conj H1 (conj H2 (conj H3 (conj H4 (conj H5 H6)))))|].
  split.
  - exact (proj1 (X4_first_error_surfaces lib true graph None brandes 1 _
                    H1 H2 H3 H4 H5)).
  - exact (proj2 (X4_first_error_surfaces lib false graph None brandes 1 _
                    H1 H2 H3 H4 H5) H6).
Defined.

(* ================================================================== *)
(** * Beyond the claims: every round starts afresh                      *)
(* ================================================================== *)

Section agreement.
Implicit Types (A : list nat) (da db : list float).

Lemma agree_add A da db v x :
  agree A da db →
  agree A (Float64Array.add da v x) (Float64Array.add db v x).
Proof.
  intros H w Hw.
  unfold Float64Array.add, Float64Array.set, Float64Array.get.
  destruct (decide (v = w)) as [->|Hne].
  - pose proof (H w Hw) as E. rewrite <- E.
    destruct (da !! w) as [y|] eqn:E1.
    + rewrite !list_lookup_insert_eq; [done | |];
        eapply lookup_lt_Some; eauto.
    + symmetry in E. rewrite !list_insert_ge by (by apply lookup_ge_None).
      by rewrite E1, E.
  - rewrite !list_lookup_insert_ne by done. by apply H.
Qed.

Lemma agree_get A da db w :
  agree A da db → w ∈ A → Float64Array.get da w = Float64Array.get db w.
Proof. intros H Hw. unfold Float64Array.get. by rewrite (H w Hw). Qed.

Lemma agree_credit A sigma c Pw da db :
  agree A da db →
  agree A (Fold.credit_predecessors sigma c Pw da)
          (Fold.credit_predecessors sigma c Pw db).
Proof.
  unfold Fold.credit_predecessors. revert da db.
  induction Pw as [|v Pw IH]; intros da db H; [done|].
  simpl. apply IH. by apply agree_add.
Qed.

Lemma agree_node_pop A P sigma i w da db centralities :
  agree A da db → w ∈ A → w ≠ i →
  agree A (Fold.node_pop P sigma i (da, centralities) w).1
          (Fold.node_pop P sigma i (db, centralities) w).1 ∧
  (Fold.node_pop P sigma i (da, centralities) w).2
  = (Fold.node_pop P sigma i (db, centralities) w).2.
Proof.
  intros H Hw Hwi. unfold Fold.node_pop, coefficient_of. simpl.
  rewrite (agree_get A da db w H Hw).
  set (c := ((1 + Float64Array.get db w) / Float64Array.get sigma w)%float).
  pose proof (agree_credit A sigma c (default [] (P !! w)) da db H) as H'.
  split; [exact H'|].
  rewrite !decide_False by done. by rewrite (agree_get A _ _ w H' Hw).
Qed.

Lemma agree_node_pops A P sigma i ws da db centralities :
  Forall (λ w, w ∈ A ∧ w ≠ i) ws →
  agree A da db →
  agree A (foldl (Fold.node_pop P sigma i) (da, centralities) ws).1
          (foldl (Fold.node_pop P sigma i) (db, centralities) ws).1 ∧
  (foldl (Fold.node_pop P sigma i) (da, centralities) ws).2
  = (foldl (Fold.node_pop P sigma i) (db, centralities) ws).2.
Proof.
  intros Hws. revert da db centralities.
  induction Hws as [|w ws [Hw Hwi] _ IH]; intros da db centralities H;
    [done|].
  simpl.
  destruct (agree_node_pop A P sigma i w da db centralities H Hw Hwi)
    as [H1 H2].
  destruct (Fold.node_pop P sigma i (da, centralities) w) as [da' c1].
  destruct (Fold.node_pop P sigma i (db, centralities) w) as [db' c2].
  simpl in *. subst c2. by apply IH.
Qed.

Lemma agree_edge_credits A graph nodes sigma c w Pw da db totals :
  agree A da db →
  agree A (foldl (Fold.edge_credit graph nodes sigma c w) (da, totals) Pw).1
          (foldl (Fold.edge_credit graph nodes sigma c w) (db, totals) Pw).1 ∧
  (foldl (Fold.edge_credit graph nodes sigma c w) (da, totals) Pw).2
  = (foldl (Fold.edge_credit graph nodes sigma c w) (db, totals) Pw).2.
Proof.
  revert da db totals.
  induction Pw as [|v Pw IH]; intros da db totals H; [done|].
  simpl. unfold Fold.edge_credit at 2 4 6 8. simpl.
  apply IH. by apply agree_add.
Qed.

Lemma agree_edge_pops A graph nodes P sigma ws da db totals :
  Forall (λ w, w ∈ A) ws →
  agree A da db →
  agree A (foldl (Fold.edge_pop graph nodes P sigma) (da, totals) ws).1
          (foldl (Fold.edge_pop graph nodes P sigma) (db, totals) ws).1 ∧
  (foldl (Fold.edge_pop graph nodes P sigma) (da, totals) ws).2
  = (foldl (Fold.edge_pop graph nodes P sigma) (db, totals) ws).2.
Proof.
  intros Hws. revert da db totals.
  induction Hws as [|w ws Hw _ IH]; intros da db totals H; [done|].
  simpl. unfold Fold.edge_pop at 2 4 6 8, coefficient_of. simpl.
  rewrite (agree_get A da db w H Hw).
  set (c := ((1 + Float64Array.get db w) / Float64Array.get sigma w)%float).
  destruct (agree_edge_credits A graph nodes sigma c w (default [] (P !! w))
              da db totals H) as [H1 H2].
  destruct (foldl (Fold.edge_credit graph nodes sigma c w) (da, totals) _)
    as [da' totals1].
  destruct (foldl (Fold.edge_credit graph nodes sigma c w) (db, totals) _)
    as [db' totals2].
  simpl in *. subst totals2. by apply IH.
Qed.

(** After the reset, [delta] holds at every node of the stack but the first
    what an array of zeroes holds there. *)
Lemma agree_reset stack delta i rest :
  take (size stack) (items stack) = i :: rest →
  agree rest (reset_delta stack delta) (Float64Array.make (length delta)).
Proof.
  intros Hstack w Hw.
  unfold reset_delta. rewrite reset_loop_visits by done.
  replace (S (size stack - size stack)) with 1 by lia.
  rewrite foldl_zero_lookup.
  assert (Hin : w ∈ take (size stack) (drop 1 (items stack))).
  { destruct (items stack) as [|a tl]; [by rewrite take_nil in Hstack|].
    destruct (size stack) as [|n]; [done|]. simpl in Hstack.
    injection Hstack as -> <-. simpl. rewrite drop_0.
    apply elem_of_take in Hw as (j & Hj & Hlt).
    apply elem_of_take. exists j. split; [done | lia]. }
  rewrite decide_True by done.
  unfold Float64Array.make.
  destruct (delta !! w) as [x|] eqn:Hx; simpl.
  - symmetry. apply lookup_replicate_2. by eapply lookup_lt_Some.
  - symmetry. apply lookup_replicate_None. by apply lookup_ge_None.
Qed.
End agreement.

(** The stack of a traversal of the indexers: the source, then the rest. *)
Lemma brandes_result_stack i t :
  brandes_result i t →
  ∃ rest, take (size (tS t)) (items (tS t)) = i :: rest ∧ i ∉ rest.
Proof.
  intros (_ & Hsize & Hfirst & Hnodup & _).
  destruct (items (tS t)) as [|a tl]; [done|].
  destruct (size (tS t)) as [|n]; [lia|].
  simpl in *. injection Hfirst as ->.
  exists (take n tl). split; [done|]. by apply NoDup_cons in Hnodup as [? _].
Qed.

(** Popping a source without predecessors changes nothing. *)
Lemma node_pop_source P sigma i state :
  P !! i = Some [] → Fold.node_pop P sigma i state i = state.
Proof.
  intros HP. destruct state as [delta centralities].
  unfold Fold.node_pop. simpl. rewrite HP. simpl.
  by rewrite decide_True.
Qed.

Lemma edge_pop_source graph nodes P sigma i state :
  P !! i = Some [] → Fold.edge_pop graph nodes P sigma state i = state.
Proof. intros HP. unfold Fold.edge_pop. by rewrite HP. Qed.

(** One round of the node accumulator, whatever [delta] it starts from, is
    the round on a fresh [delta]. *)
Lemma node_round_fresh brandes i t delta centralities :
  run brandes i = Ok t →
  brandes_result i t →
  ∃ delta',
    node_source brandes i (delta, centralities)
    = Ok (delta', Fresh.node_round (length delta) t i centralities) ∧
    length delta' = length delta.
Proof.
  intros Ht Hgood.
  destruct (brandes_result_stack i t Hgood) as (rest & Hstack & Hfresh).
  destruct Hgood as ((Hsize & Hnodes) & _ & _ & _ & Hsource).
  unfold node_source, mbind, result_bind. rewrite Ht. simpl.
  rewrite node_accumulate_fold by done.
  eexists. split.
  - f_equal. apply injective_projections; [reflexivity|]. simpl.
    unfold Fresh.node_round, Spec.node_backward, Spec.pop_order.
    rewrite <- fold_node_pops.
    rewrite Hstack, reverse_cons, !foldl_snoc.
    assert (Hws : Forall (λ w, w ∈ rest ∧ w ≠ i) (reverse rest)).
    { apply Forall_reverse, Forall_forall. intros w Hw. split; [done|].
      by intros ->. }
    destruct (agree_node_pops rest (tP t) (tsigma t) i (reverse rest)
                (reset_delta (tS t) delta)
                (Float64Array.make (length delta)) centralities Hws
                (agree_reset _ _ _ _ Hstack)) as [_ Hsame].
    rewrite !node_pop_source by done. exact Hsame.
  - simpl.
    pose proof (node_accumulate_fold (size (tS t)) (items (tS t)) (tP t)
                  (tsigma t) i (reset_delta (tS t) delta) centralities
                  Hsize Hnodes) as Hfold.
    apply length_node_accumulate in Hfold as [Hlen _].
    unfold reset_delta in Hlen. by rewrite length_reset_loop in Hlen.
Qed.

Lemma length_edge_accumulate n items P sigma graph names state r :
  multi graph = false →
  links_known graph names P (take n items) →
  edge_accumulate n items P sigma graph names state = Ok r →
  length r.1 = length state.1.
Proof.
  intros Hmulti Hknown Hr. destruct state as [delta totals].
  pose proof (accumulate_same_delta n items P sigma graph names 0 delta totals
                [] Hmulti Hknown) as Hdelta.
  rewrite Hr in Hdelta.
  destruct (node_accumulate _ _ _ _ _ _ _) as [r'|] eqn:Hnode; [|done].
  simpl in Hdelta. rewrite Hdelta.
  by apply length_node_accumulate in Hnode as [Hlen _].
Qed.

Lemma edge_round_fresh graph brandes i t delta totals :
  run brandes i = Ok t →
  brandes_result i t →
  lookups_return graph (index_nodes brandes) t →
  Forall (λ k, k ≠ "__proto__") (credited graph (index_nodes brandes) t) →
  ∃ delta',
    edge_source graph brandes i (delta, totals)
    = Ok (delta',
          Fresh.edge_round (length delta) graph (index_nodes brandes) t totals) ∧
    length delta' = length delta.
Proof.
  intros Ht Hgood [Hmulti Hknown] Hplain.
  destruct (brandes_result_stack i t Hgood) as (rest & Hstack & Hfresh).
  destruct Hgood as ((Hsize & Hnodes) & _ & _ & _ & Hsource).
  unfold edge_source, mbind, result_bind. rewrite Ht. simpl.
  destruct (edge_accumulate _ _ _ _ _ _ _) as [r|] eqn:Hr;
    [|by rewrite edge_accumulate_take in Hr].
  pose proof (length_edge_accumulate _ _ _ _ _ _ _ _ Hmulti Hknown Hr) as Hlen.
  simpl in Hlen. unfold reset_delta in Hlen.
  rewrite length_reset_loop in Hlen.
  rewrite edge_accumulate_take in Hr by done. injection Hr as <-.
  eexists. split; [|exact Hlen].
  f_equal. apply injective_projections; [reflexivity|]. simpl.
  assert (Hws : Forall (λ w, w ∈ rest) (reverse rest)).
  { apply Forall_reverse, Forall_forall. by intros w Hw. }
  destruct (agree_edge_pops rest graph (index_nodes brandes) (tP t) (tsigma t)
              (reverse rest) (reset_delta (tS t) delta)
              (Float64Array.make (length delta)) totals Hws
              (agree_reset _ _ _ _ Hstack)) as [_ Hsame].
  unfold Fresh.edge_round, Spec.edge_backward.
  rewrite <- (fold_edge_pops graph (index_nodes brandes) (tP t) (tsigma t)
                (Spec.pop_order (tS t))) by exact Hplain.
  unfold Spec.pop_order.
  rewrite Hstack, reverse_cons, !foldl_snoc.
  rewrite !edge_pop_source by done. exact Hsame.
Qed.

Lemma node_sources_fresh n k N brandes delta centralities :
  length delta = N →
  Forall (λ i, match run brandes i with
               | Ok t => brandes_result i t
               | Throw _ => False
               end) (seq k n) →
  ∃ delta',
    node_sources n k brandes (delta, centralities)
    = Ok (delta',
          foldl (λ centralities i,
                   match run brandes i with
                   | Ok t => Fresh.node_round N t i centralities
                   | Throw _ => centralities
                   end) centralities (seq k n)) ∧
    length delta' = N.
Proof.
  revert k delta centralities.
  induction n as [|n IH]; intros k delta centralities Hlen Hgood.
  - by eexists.
  - simpl in Hgood. apply Forall_cons in Hgood as [Hk Hgood].
    simpl. destruct (run brandes k) as [t|] eqn:Ht; [|done].
    destruct (node_round_fresh brandes k t delta centralities Ht Hk)
      as (delta' & Hround & Hlen').
    rewrite Hround, Hlen. simpl.
    apply IH; [congruence | done].
Qed.

(** A key that is numeric before a round is not [__proto__]. *)
Lemma numeric_plain (o : gmap string float) (ks : list string) :
  Forall (Obj.numeric o) ks → Forall (λ k, k ≠ "__proto__") ks.
Proof. intros H. eapply Forall_impl; [exact H|]. by intros k [Hk _]. Qed.

Lemma edge_sources_fresh n k N graph brandes delta totals :
  length delta = N →
  Forall (λ i, match run brandes i with
               | Ok t => edge_brandes_result graph (index_nodes brandes) i t
               | Throw _ => False
               end) (seq k n) →
  ∃ delta',
    edge_sources n k graph brandes (delta, totals)
    = Ok (delta',
          foldl (λ totals i,
                   match run brandes i with
                   | Ok t => Fresh.edge_round N graph (index_nodes brandes) t
                               totals
                   | Throw _ => totals
                   end) totals (seq k n)) ∧
    length delta' = N.
Proof.
  revert k delta totals.
  induction n as [|n IH]; intros k delta totals Hlen Hgood.
  - by eexists.
  - simpl in Hgood. apply Forall_cons in Hgood as [Hk Hgood].
    simpl. destruct (run brandes k) as [t|] eqn:Ht; [|done].
    destruct Hk as (Hresult & Hlookups & Hnumeric).
    destruct (edge_round_fresh graph brandes k t delta totals Ht Hresult
                Hlookups (numeric_plain _ _ Hnumeric))
      as (delta' & Hround & Hlen').
    rewrite Hround, Hlen. simpl.
    apply IH; [congruence | done].
Qed.

(** X5.  The slip of the reset loop does not show in the node totals.  When
    the indexer answers every source with a traversal as Brandes' indexers
    build them (well formed, the source first on the stack, no node twice, no
    predecessor for the source), the sums the node function ends with are
    those of the rounds run one after the other each on a [delta] of [N]
    zeroes: nothing a round leaves in [delta] reaches a later round. *)
Theorem X5_node_totals_fresh (lib : IndexedBrandes) (graph : Graph)
    (options : gmap string value) (brandes : Indexer) :
  create lib graph (strategy options) = Ok brandes →
  indexer_answers brandes_result (order graph) brandes →
  node_totals lib graph options
  = Ok (brandes,
        Fresh.node_rounds (order graph) brandes
          (Float64Array.make (order graph))).
Proof.
  intros Hcreate Hgood.
  unfold node_totals, mbind, result_bind. rewrite Hcreate.
  destruct (node_sources_fresh (order graph) 0 (order graph) brandes
              (Float64Array.make (order graph))
              (Float64Array.make (order graph))
              (length_make _) Hgood) as (delta' & -> & _).
  done.
Qed.

Lemma X5_node_totals_fresh_witness :
  let brandes := Example.undirected_path_brandes in
  let lib := Example.lib_of brandes in
  let graph := Example.undirected_path in
  let options := resolveDefaults None DEFAULTS_NODE in
  (create lib graph (strategy options) = Ok brandes ∧
   indexer_answers brandes_result (order graph) brandes) ∧
  node_totals lib graph options
  = Ok (brandes, Fresh.node_rounds 3 brandes (Float64Array.make 3)).
Proof.
  intros brandes lib graph options.
  assert (H1 : create lib graph (strategy options) = Ok brandes)
    by (vm_compute; reflexivity).
  assert (H2 : indexer_answers brandes_result (order graph) brandes)
    by (apply (bool_decide_unpack _); vm_compute; exact I).
  split; [exact (conj H1 H2)|].
  exact (X5_node_totals_fresh lib graph options brandes H1 H2).
Defined.

(** X6.  Nor does it show in the edge totals.  When moreover every lookup
    returns (the graph is no multigraph and has the nodes of every
    predecessor link) and the keys credited are numeric properties of the
    initialized totals (edges of the graph or no property at all, and not
    [__proto__]), the sums the edge function ends with are those of the
    rounds run one after the other, from the totals of the initialization,
    each on a [delta] of [N] zeroes. *)
Theorem X6_edge_totals_fresh (lib : IndexedBrandes) (graph : Graph)
    (options : gmap string value) (brandes : Indexer) :
  create lib graph (strategy options) = Ok brandes →
  indexer_answers (edge_brandes_result graph (index_nodes brandes))
    (order graph) brandes →
  edge_totals lib graph options
  = Ok (Fresh.edge_rounds (order graph) graph brandes (edge_init graph)).
Proof.
  intros Hcreate Hgood.
  unfold edge_totals, mbind, result_bind. rewrite Hcreate.
  destruct (edge_sources_fresh (order graph) 0 (order graph) graph brandes
              (Float64Array.make (order graph)) (edge_init graph)
              (length_make _) Hgood) as (delta' & -> & _).
  done.
Qed.

Lemma X6_edge_totals_fresh_witness :
  let brandes := Example.undirected_path_brandes in
  let lib := Example.lib_of brandes in
  let graph := Example.undirected_path in
  let options := resolveDefaults None DEFAULTS_EDGE in
  (create lib graph (strategy options) = Ok brandes ∧
   indexer_answers (edge_brandes_result graph (index_nodes brandes))
     (order graph) brandes) ∧
  edge_totals lib graph options
  = Ok (Fresh.edge_rounds 3 graph brandes (edge_init graph)) ∧
  Fresh.edge_rounds 3 graph brandes (edge_init graph)
  = <["AB" := 4%float]> (<["BC" := 4%float]> ∅).
Proof.
  intros brandes lib graph options.
  assert (H1 : create lib graph (strategy options) = Ok brandes)
    by (vm_compute; reflexivity).
  assert (H2 : indexer_answers (edge_brandes_result graph (index_nodes brandes))
                 (order graph) brandes)
    by (apply (bool_decide_unpack _); vm_compute; exact I).
  split; [exact (conj H1 H2)|].
  split; [exact (X6_edge_totals_fresh lib graph options brandes H1 H2)|].
  vm_compute. reflexivity.
Defined.

(* ================================================================== *)
(** * Beyond the claims: a graph without predecessors                   *)
(* ================================================================== *)

Lemma reset_loop_zeroes stack j N :
  reset_loop stack j (Float64Array.make N) = Float64Array.make N.
Proof.
  induction j as [|j IH]; simpl; [done|].
  destruct (items stack !! _); [|done].
  unfold Float64Array.set, Float64Array.make. by rewrite insert_replicate.
Qed.

Lemma add_zero_zeroes N w :
  Float64Array.add (Float64Array.make N) w
    (Float64Array.get (Float64Array.make N) w)
  = Float64Array.make N.
Proof.
  unfold Float64Array.add, Float64Array.set, Float64Array.get,
    Float64Array.make.
  destruct (decide (w < N)) as [Hw|Hw].
  - rewrite lookup_replicate_2 by done. simpl.
    change (0 + 0)%float with 0%float. apply insert_replicate.
  - apply list_insert_ge. rewrite length_replicate. lia.
Qed.

Lemma node_accumulate_zeroes n items P sigma i N :
  n ≤ length items →
  Forall (λ w, w < length P) (take n items) →
  Forall (λ Pw, Pw = []) P →
  node_accumulate n items P sigma i (Float64Array.make N) (Float64Array.make N)
  = Ok (Float64Array.make N, Float64Array.make N).
Proof.
  intros Hn Hall Hempty. induction n as [|n IH]; simpl; [done|].
  destruct (lookup_lt_is_Some_2 items n) as [w Hw]; [lia|].
  rewrite (take_S_r _ _ _ Hw), Forall_app, Forall_singleton in Hall.
  destruct Hall as [Hall Hlast].
  destruct (lookup_lt_is_Some_2 P w) as [Pw HPw]; [done|].
  rewrite Hw, HPw.
  rewrite (proj1 (Forall_lookup _ _) Hempty w Pw HPw). simpl.
  case_decide; [|rewrite add_zero_zeroes]; apply IH; (lia || done).
Qed.

Lemma edge_accumulate_idle n items P sigma graph nodes state :
  n ≤ length items →
  Forall (λ w, w < length P) (take n items) →
  Forall (λ Pw, Pw = []) P →
  edge_accumulate n items P sigma graph nodes state = Ok state.
Proof.
  intros Hn Hall Hempty. induction n as [|n IH]; simpl; [done|].
  destruct (lookup_lt_is_Some_2 items n) as [w Hw]; [lia|].
  rewrite (take_S_r _ _ _ Hw), Forall_app, Forall_singleton in Hall.
  destruct Hall as [Hall Hlast].
  destruct (lookup_lt_is_Some_2 P w) as [Pw HPw]; [done|].
  rewrite Hw, HPw.
  rewrite (proj1 (Forall_lookup _ _) Hempty w Pw HPw). simpl.
  apply IH; (lia || done).
Qed.

Lemma sources_zeroes n k N graph brandes totals :
  Forall (λ i, match run brandes i with
               | Ok t => no_predecessors i t
               | Throw _ => False
               end) (seq k n) →
  node_sources n k brandes (Float64Array.make N, Float64Array.make N)
  = Ok (Float64Array.make N, Float64Array.make N) ∧
  edge_sources n k graph brandes (Float64Array.make N, totals)
  = Ok (Float64Array.make N, totals).
Proof.
  revert k. induction n as [|n IH]; intros k Hgood; [done|].
  simpl in Hgood. apply Forall_cons in Hgood as [Hk Hgood].
  simpl. unfold node_source, edge_source, mbind, result_bind.
  destruct (run brandes k) as [t|]; [|done].
  destruct Hk as [[Hsize Hnodes] Hempty]. simpl.
  unfold reset_delta. rewrite reset_loop_zeroes.
  rewrite node_accumulate_zeroes, edge_accumulate_idle by done.
  by apply IH.
Qed.

(** X7.  A graph without predecessors has all its totals at zero.  When the
    indexer answers every source with a well-formed traversal in which no
    node has a predecessor (the traversals of a graph without edges, or
    with self-loops only), the sums of the node function are [N] zeroes and
    the sums of the edge function are the zeroes of the initialization. *)
Theorem X7_no_predecessors_zero_totals (lib : IndexedBrandes) (graph : Graph)
    (options : gmap string value) (brandes : Indexer) :
  create lib graph (strategy options) = Ok brandes →
  indexer_answers no_predecessors (order graph) brandes →
  node_totals lib graph options
  = Ok (brandes, Float64Array.make (order graph)) ∧
  edge_totals lib graph options = Ok (edge_init graph).
Proof.
  intros Hcreate Hgood.
  destruct (sources_zeroes (order graph) 0 (order graph) graph brandes
              (edge_init graph) Hgood) as [Hnode Hedge].
  unfold node_totals, edge_totals, mbind, result_bind.
  by rewrite Hcreate, Hnode, Hedge.
Qed.

Lemma X7_no_predecessors_zero_totals_witness :
  let brandes : Indexer :=
    {| run := λ i, Ok (Example.traversal [i; 0] 1 [[]; []] [1; 1]%float);
       index_nodes := ["A"; "B"] |} in
  let lib := Example.lib_of brandes in
  let graph : Graph :=
    {| nodes := ["A"; "B"]; type := directed; multi := false;
       edges := ["AA"];
       adjacency := λ u v,
         if Example.joins "A" "A" u v then Some "AA" else None;
       node_attributes := ∅; edge_attributes := ∅ |} in
  let options := resolveDefaults None DEFAULTS_NODE in
  (create lib graph (strategy options) = Ok brandes ∧
   indexer_answers no_predecessors (order graph) brandes) ∧
  node_totals lib graph options = Ok (brandes, [0; 0]%float) ∧
  edge_totals lib graph options = Ok (<["AA" := 0%float]> ∅).
Proof.
  intros brandes lib graph options.
  assert (H1 : create lib graph (strategy options) = Ok brandes)
    by (vm_compute; reflexivity).
  assert (H2 : indexer_answers no_predecessors (order graph) brandes)
    by (apply (bool_decide_unpack _); vm_compute; exact I).
  split; [exact (conj H1 H2)|].
  exact (X7_no_predecessors_zero_totals lib graph options brandes H1 H2).
Defined.

(* ================================================================== *)
(** * Beyond the claims: the keys of the edge mapping                   *)
(* ================================================================== *)

Section keys.
Context (graph : Graph) (nodes : list string).

Lemma keys_add totals k x :
  k ∈ edges graph →
  keys_are_edges graph totals → keys_are_edges graph (Obj.add totals k x).
Proof.
  intros Hk Hkeys k'. unfold Obj.add, Obj.set. case_decide; [apply Hkeys|].
  destruct (decide (k = k')) as [<-|Hne]; [done|].
  rewrite lookup_insert_ne by done. apply Hkeys.
Qed.

Lemma keys_mul totals k x :
  k ∈ edges graph →
  keys_are_edges graph totals → keys_are_edges graph (Obj.mul totals k x).
Proof.
  intros Hk Hkeys k'. unfold Obj.mul, Obj.set. case_decide; [apply Hkeys|].
  destruct (decide (k = k')) as [<-|Hne]; [done|].
  rewrite lookup_insert_ne by done. apply Hkeys.
Qed.

Lemma keys_edge_credits sigma c w Pw state :
  Forall (λ k, k ∈ edges graph)
    (v ← Pw; [Obj.key (Spec.resolve_edge graph nodes v w)]) →
  keys_are_edges graph state.2 →
  keys_are_edges graph
    (foldl (Fold.edge_credit graph nodes sigma c w) state Pw).2.
Proof.
  revert state. induction Pw as [|v Pw IH]; intros state Hall Hkeys; [done|].
  rewrite bind_cons, Forall_app, Forall_singleton in Hall.
  destruct Hall as [Hv Hall].
  simpl. apply IH; [done|].
  exact (keys_add _ _ _ Hv Hkeys).
Qed.

Lemma keys_edge_pops P sigma ws state :
  Forall (λ k, k ∈ edges graph)
    (w ← ws; v ← default [] (P !! w);
     [Obj.key (Spec.resolve_edge graph nodes v w)]) →
  keys_are_edges graph state.2 →
  keys_are_edges graph
    (foldl (Fold.edge_pop graph nodes P sigma) state ws).2.
Proof.
  revert state. induction ws as [|w ws IH]; intros state Hall Hkeys; [done|].
  rewrite bind_cons in Hall. apply Forall_app in Hall as [Hw Hall].
  simpl. apply IH; [done|]. unfold Fold.edge_pop.
  by apply keys_edge_credits.
Qed.
End keys.

Lemma keys_edge_init graph : keys_are_edges graph (edge_init graph).
Proof.
  intros k. unfold edge_init, forEachEdge. rewrite foldl_set_zero_lookup.
  case_decide as Hk; [by destruct Hk|]. rewrite lookup_empty. by intros [? ?].
Qed.

Lemma keys_edge_rescale graph scale totals :
  keys_are_edges graph totals →
  keys_are_edges graph (edge_rescale graph scale totals).
Proof.
  destruct scale as [scale|]; [|done]. unfold edge_rescale, forEachEdge.
  assert (H : ∀ es, Forall (λ k, k ∈ edges graph) es →
            ∀ totals, keys_are_edges graph totals →
            keys_are_edges graph (foldl (λ a e, Obj.mul a e scale) totals es)).
  { induction es as [|a es IH]; intros Hes o Ho; [done|].
    apply Forall_cons in Hes as [Ha Hes]. simpl.
    apply IH; [done|]. by apply keys_mul. }
  apply H. by apply Forall_forall.
Qed.

Lemma keys_edge_sources n k graph brandes state :
  Forall (λ i, match run brandes i with
               | Ok t => credits_edges graph (index_nodes brandes) i t
               | Throw _ => False
               end) (seq k n) →
  keys_are_edges graph state.2 →
  ∃ state', edge_sources n k graph brandes state = Ok state' ∧
            keys_are_edges graph state'.2.
Proof.
  revert k state. induction n as [|n IH]; intros k state Hgood Hkeys.
  - by eexists.
  - simpl in Hgood. apply Forall_cons in Hgood as [Hk Hgood].
    simpl. unfold edge_source, mbind, result_bind.
    destruct (run brandes k) as [t|]; [|done].
    destruct Hk as [[[Hsize Hnodes] [Hmulti Hknown]] Hcredits]. simpl.
    rewrite edge_accumulate_take by done.
    apply IH; [done|]. by apply keys_edge_pops.
Qed.

(** X8.  The mapping of the edge function has the edges of the graph as its
    keys, and no other, but it never has the key [__proto__]: when the
    indexer answers every source with a well-formed traversal whose lookups
    return (no multigraph, the nodes of every predecessor link are nodes of
    the graph) and find edges the graph enumerates, the collect variant
    returns a mapping in which a key has an entry exactly when it is an edge
    of the graph other than [__proto__]. *)
Theorem X8_edge_mapping_keys (lib : IndexedBrandes) (graph : Graph)
    (options : option (gmap string value)) (brandes : Indexer) :
  create lib graph (strategy (resolveDefaults options DEFAULTS_EDGE))
  = Ok brandes →
  indexer_answers (credits_edges graph (index_nodes brandes)) (order graph)
    brandes →
  ∃ mapping,
    edgeBetweennessCentrality lib (AGraph graph) options
    = (AGraph graph, Ok (Some mapping)) ∧
    ∀ k, is_Some (mapping !! k) ↔ k ∈ edges graph ∧ k ≠ "__proto__".
Proof.
  intros Hcreate Hgood.
  destruct (keys_edge_sources (order graph) 0 graph brandes
              (Float64Array.make (order graph), edge_init graph) Hgood
              (keys_edge_init graph)) as (state & Hstate & Hkeys).
  unfold edgeBetweennessCentrality, abstractEdgeBetweennessCentrality. simpl.
  revert Hcreate.
  generalize (resolveDefaults options DEFAULTS_EDGE) as resolved.
  intros resolved Hcreate.
  assert (Htotals : edge_totals lib graph resolved = Ok state.2).
  { unfold edge_totals, mbind, result_bind. by rewrite Hcreate, Hstate. }
  unfold edge_centralities, mbind, result_bind. rewrite Htotals.
  eexists. split; [reflexivity|].
  intros k. split.
  - intros Hk. split; [by eapply keys_edge_rescale|].
    intros ->.
    rewrite edge_rescale_proto in Hk by (by eapply edge_totals_proto).
    by destruct Hk.
  - intros [Hk Hp]. by eapply edge_rescale_present, edge_totals_present.
Qed.

Lemma X8_edge_mapping_keys_witness :
  let brandes := Example.undirected_path_brandes in
  let lib := Example.lib_of brandes in
  let graph := Example.proto_path in
  (create lib graph (strategy (resolveDefaults None DEFAULTS_EDGE)) = Ok brandes ∧
   indexer_answers (credits_edges graph (index_nodes brandes)) (order graph)
     brandes) ∧
  ∃ mapping,
    edgeBetweennessCentrality lib (AGraph graph) None
    = (AGraph graph, Ok (Some mapping)) ∧
    ∀ k, is_Some (mapping !! k) ↔ k ∈ edges graph ∧ k ≠ "__proto__".
Proof.
  intros brandes lib graph.
  assert (H1 : create lib graph (strategy (resolveDefaults None DEFAULTS_EDGE))
               = Ok brandes) by (vm_compute; reflexivity).
  assert (H2 : indexer_answers (credits_edges graph (index_nodes brandes))
                 (order graph) brandes)
    by (apply (bool_decide_unpack _); vm_compute; exact I).
  split; [exact (conj H1 H2)|].
  exact (X8_edge_mapping_keys lib graph None brandes H1 H2).
Defined.

(* ================================================================== *)
(** * Beyond the claims: a predecessor link without an edge             *)
(* ================================================================== *)

Lemma nan_add (x : float) : (PrimFloat.nan + x)%float = PrimFloat.nan.
Proof.
  apply Prim2SF_inj. rewrite add_spec.
  replace (FloatOps.Prim2SF PrimFloat.nan) with SpecFloat.S754_nan
    by reflexivity.
  reflexivity.
Qed.

Lemma nan_mul (x : float) : (PrimFloat.nan * x)%float = PrimFloat.nan.
Proof.
  apply Prim2SF_inj. rewrite mul_spec.
  replace (FloatOps.Prim2SF PrimFloat.nan) with SpecFloat.S754_nan
    by reflexivity.
  reflexivity.
Qed.

(** A property that reads as NaN still does after any credit. *)
Lemma add_keeps_nan (o : gmap string float) (k k' : string) (x : float) :
  to_number (o !! k) = PrimFloat.nan →
  to_number (Obj.add o k' x !! k) = PrimFloat.nan.
Proof.
  intros Hnan. unfold Obj.add, Obj.set, Obj.get. case_decide; [done|].
  destruct (decide (k' = k)) as [->|Hne].
  - rewrite lookup_insert_eq, Hnan. simpl. apply nan_add.
  - by rewrite lookup_insert_ne.
Qed.

Section credits.
Context (graph : Graph) (nodes : list string).

Lemma edge_credits_present sigma c w Pw state k :
  k ≠ "__proto__" →
  is_Some (state.2 !! k) ∨
  k ∈ (v ← Pw; [Obj.key (Spec.resolve_edge graph nodes v w)]) →
  is_Some ((foldl (Fold.edge_credit graph nodes sigma c w) state Pw).2 !! k).
Proof.
  intros Hp. revert state. induction Pw as [|v Pw IH]; intros state Hk.
  - destruct Hk as [Hk|Hk]; [done|]. by apply elem_of_nil in Hk.
  - simpl. apply IH. rewrite bind_cons, elem_of_app, list_elem_of_singleton in Hk.
    destruct Hk as [Hk|[->|Hk]]; [left|left|by right].
    + by apply add_keeps_present.
    + simpl. unfold Obj.add. rewrite set_lookup_eq by done. by eexists.
Qed.

Lemma edge_pops_present P sigma ws state k :
  k ≠ "__proto__" →
  is_Some (state.2 !! k) ∨
  k ∈ (w ← ws; v ← default [] (P !! w);
       [Obj.key (Spec.resolve_edge graph nodes v w)]) →
  is_Some ((foldl (Fold.edge_pop graph nodes P sigma) state ws).2 !! k).
Proof.
  intros Hp. revert state. induction ws as [|w ws IH]; intros state Hk.
  - destruct Hk as [Hk|Hk]; [done|]. by apply elem_of_nil in Hk.
  - simpl. apply IH. rewrite bind_cons, elem_of_app in Hk.
    destruct Hk as [Hk|[Hk|Hk]]; [left|left|by right];
      apply edge_credits_present; auto.
Qed.
End credits.

(** A lookup that returns [undefined] found nothing in the adjacency. *)
Lemma edge_undefined graph source target :
  edge graph source target = Ok None → adjacency graph source target = None.
Proof.
  unfold edge. destruct (multi graph); [done|].
  case_decide; [|done]. by intros [= ->].
Qed.

Lemma unresolved_credited graph nodes t :
  unresolved graph nodes t → "undefined" ∈ credited graph nodes t.
Proof.
  unfold unresolved, credited, Spec.pop_order.
  intros (w & Hw & (v & Hv & Hvw & Hwv)%Exists_exists)%Exists_exists.
  apply list_elem_of_bind. exists w. split; [|by apply elem_of_reverse].
  apply list_elem_of_bind. exists v. split; [|done].
  apply edge_undefined in Hvw, Hwv. unfold Obj.key in Hvw, Hwv.
  unfold Spec.resolve_edge. rewrite Hvw, Hwv. apply list_elem_of_singleton.
  reflexivity.
Qed.

Lemma edge_sources_credited n k graph brandes state state' i t e :
  e ≠ "__proto__" →
  Forall (λ i, match run brandes i with
               | Ok t => edge_round_wf graph (index_nodes brandes) i t
               | Throw _ => False
               end) (seq k n) →
  edge_sources n k graph brandes state = Ok state' →
  k ≤ i < k + n → run brandes i = Ok t →
  e ∈ credited graph (index_nodes brandes) t →
  is_Some (state'.2 !! e).
Proof.
  intros Hp. revert k state.
  induction n as [|n IH]; intros k state Hwf Hrun Hi Ht He; [lia|].
  simpl in Hwf. apply Forall_cons in Hwf as [Hk Hwf].
  simpl in Hrun. unfold edge_source, mbind, result_bind at 1 in Hrun.
  destruct (run brandes k) as [tk|] eqn:Htk; [|done].
  destruct Hk as [[Hsize Hnodes] [Hmulti Hknown]]. simpl in Hrun.
  rewrite edge_accumulate_take in Hrun by done.
  destruct (decide (i = k)) as [->|Hne].
  - assert (tk = t) as -> by congruence.
    eapply (edge_sources_invariant (λ o, is_Some (o !! e))); [| |exact Hrun].
    + intros o k' x. apply add_keeps_present.
    + apply edge_pops_present; [done|]. by right.
  - eapply IH; [done|exact Hrun|lia|done|done].
Qed.

Lemma edge_rescale_keeps_nan graph scale totals k :
  totals !! k = Some PrimFloat.nan →
  edge_rescale graph scale totals !! k = Some PrimFloat.nan.
Proof.
  destruct scale as [scale|]; [|done]. unfold edge_rescale, forEachEdge.
  revert totals. induction (edges graph) as [|a es IH]; intros totals Hk; [done|].
  simpl. apply IH. unfold Obj.mul, Obj.set, Obj.get. case_decide; [done|].
  destruct (decide (a = k)) as [->|Hne].
  - rewrite lookup_insert_eq, Hk. simpl. by rewrite nan_mul.
  - by rewrite lookup_insert_ne.
Qed.

(** X9.  A predecessor link for which [graph.edge] finds no edge under
    either orientation does not make the edge function throw: the credit goes
    to the property ['undefined'].  When no edge of the graph is itself named
    ['undefined'], the round of every source completes (its traversal is
    well formed and its lookups return) and one of them has such a link, the
    collect variant returns a mapping with the extra key ['undefined'], and
    the value under it is NaN. *)
Theorem X9_unresolved_link_gives_nan (lib : IndexedBrandes) (graph : Graph)
    (options : option (gmap string value)) (brandes : Indexer)
    (i : nat) (t : Traversal) :
  create lib graph (strategy (resolveDefaults options DEFAULTS_EDGE))
  = Ok brandes →
  indexer_answers (edge_round_wf graph (index_nodes brandes)) (order graph)
    brandes →
  "undefined" ∉ edges graph →
  i < order graph →
  run brandes i = Ok t →
  unresolved graph (index_nodes brandes) t →
  ∃ mapping,
    edgeBetweennessCentrality lib (AGraph graph) options
    = (AGraph graph, Ok (Some mapping)) ∧
    mapping !! "undefined" = Some PrimFloat.nan.
Proof.
  intros Hcreate Hwf Hname Hi Ht Hlink.
  destruct (edge_sources_returns (order graph) 0 graph brandes
              (Float64Array.make (order graph), edge_init graph) "undefined"
              Hwf) as (state & Hstate & _).
  assert (Hsome : is_Some (state.2 !! "undefined")).
  { apply (edge_sources_credited (order graph) 0 graph brandes _ state i t
             "undefined" ltac:(discriminate) Hwf Hstate); [lia|exact Ht|].
    by apply unresolved_credited. }
  assert (Hnan : to_number (state.2 !! "undefined") = PrimFloat.nan).
  { eapply (edge_sources_invariant
              (λ o, to_number (o !! "undefined") = PrimFloat.nan));
      [| |exact Hstate].
    - intros o k x. apply add_keeps_nan.
    - simpl. unfold edge_init, forEachEdge.
      rewrite foldl_set_zero_lookup.
      rewrite decide_False by (intros [Hin _]; exact (Hname Hin)).
      by rewrite lookup_empty. }
  destruct Hsome as [x Hx]. rewrite Hx in Hnan. simpl in Hnan. subst x.
  unfold edgeBetweennessCentrality, abstractEdgeBetweennessCentrality. simpl.
  revert Hcreate.
  generalize (resolveDefaults options DEFAULTS_EDGE) as resolved.
  intros resolved Hcreate.
  assert (Htotals : edge_totals lib graph resolved = Ok state.2).
  { unfold edge_totals, mbind, result_bind. by rewrite Hcreate, Hstate. }
  unfold edge_centralities, mbind, result_bind. rewrite Htotals.
  eexists. split; [reflexivity|].
  by apply edge_rescale_keeps_nan.
Qed.

Lemma X9_unresolved_link_gives_nan_witness :
  let brandes := Example.directed_path_brandes in
  let lib := Example.lib_of brandes in
  let graph := no_lookup Example.directed_path in
  let t := Example.traversal [0; 1; 2] 3 [[]; [0]; [1]] [1; 1; 1]%float in
  (create lib graph (strategy (resolveDefaults None DEFAULTS_EDGE)) = Ok brandes ∧
   indexer_answers (edge_round_wf graph (index_nodes brandes)) (order graph)
     brandes ∧
   ("undefined" ∉ edges graph) ∧ 0 < order graph ∧ run brandes 0 = Ok t ∧
   unresolved graph (index_nodes brandes) t) ∧
  ∃ mapping,
    edgeBetweennessCentrality lib (AGraph graph) None
    = (AGraph graph, Ok (Some mapping)) ∧
    mapping !! "undefined" = Some PrimFloat.nan.
Proof.
  intros brandes lib graph t.
  assert (H1 : create lib graph (strategy (resolveDefaults None DEFAULTS_EDGE))
               = Ok brandes) by (vm_compute; reflexivity).
  assert (H2 : indexer_answers (edge_round_wf graph (index_nodes brandes))
                 (order graph) brandes)
    by (apply (bool_decide_unpack _); vm_compute; exact I).
  assert (H3 : "undefined" ∉ edges graph)
    by (apply (bool_decide_unpack _); vm_compute; exact I).
  assert (H4 : 0 < order graph) by (vm_compute; lia).
  assert (H5 : run brandes 0 = Ok t) by (vm_compute; reflexivity).
  assert (H6 : unresolved graph (index_nodes brandes) t)
    by (apply (bool_decide_unpack _); vm_compute; exact I).
  split; [exact (conj H1 (conj H2 (conj H3 (conj H4 (conj H5 H6)))))|].
  exact (X9_unresolved_link_gives_nan lib graph None brandes 0 t
           H1 H2 H3 H4 H5 H6).
Defined.

(* ================================================================== *)
(** * Beyond the claims: what the assign variant writes                 *)
(* ================================================================== *)

Lemma update_each_lookup {A : Type} (update : string → A → A) (d : A)
    (es : list string) (store : gmap string A) (e : string) :
  (∀ e x, update e (update e x) = update e x) →
  foldl (λ a e, <[e := update e (default d (a !! e))]> a) store es !! e
  = if decide (e ∈ es)
    then Some (update e (default d (store !! e)))
    else store !! e.
Proof.
  intros Hidem. revert store. induction es as [|a es IH]; intros store.
  - by rewrite decide_False by apply not_elem_of_nil.
  - simpl. rewrite IH. destruct (decide (a = e)) as [->|Hne].
    + rewrite lookup_insert_eq. simpl.
      rewrite (decide_True (P := e ∈ e :: es))
        by (apply elem_of_cons; by left).
      case_decide; [|done]. by rewrite Hidem.
    + rewrite lookup_insert_ne by done.
      destruct (decide (e ∈ es)) as [Hin|Hin],
               (decide (e ∈ a :: es)) as [Hin'|Hin']; try done.
      * exfalso. apply Hin', elem_of_cons. by right.
      * apply elem_of_cons in Hin' as [->|?]; done.
Qed.

Lemma set_set {A : Type} (o : gmap string A) k x :
  Obj.set (Obj.set o k x) k x = Obj.set o k x.
Proof.
  unfold Obj.set. case_decide; [done|]. apply insert_insert_eq.
Qed.

Lemma set_lookup {A : Type} (o : gmap string A) k x a :
  Obj.set o k x !! a
  = if decide (a = k ∧ k ≠ "__proto__") then Some x else o !! a.
Proof.
  unfold Obj.set. destruct (decide (k = "__proto__")) as [Hk|Hk].
  - rewrite decide_False; [done|]. by intros [_ ?].
  - destruct (decide (a = k)) as [->|Hne].
    + rewrite lookup_insert_eq. by rewrite decide_True.
    + rewrite lookup_insert_ne by done.
      rewrite decide_False; [done|]. by intros [? _].
Qed.

(** X10.  The assign variant of the edge function stores what the collect
    variant returns.  When the collect variant returns a mapping, the assign
    variant returns [undefined] and leaves a graph with the same nodes,
    edges and node attributes in which every edge the graph enumerates has,
    under the attribute named by [edgeCentralityAttribute], the entry of the
    mapping for this edge, a number (for an edge with the key [__proto__]:
    the object [Object.prototype]), its other attributes being as before;
    what is stored for a key that is not an edge is untouched.  When the
    attribute name is [__proto__], nothing is stored at all. *)
Theorem X10_edge_assign_stores_mapping (lib : IndexedBrandes) (graph : Graph)
    (options : option (gmap string value)) (mapping : gmap string float) :
  edgeBetweennessCentrality lib (AGraph graph) options
  = (AGraph graph, Ok (Some mapping)) →
  let name :=
    to_property_key
      (prop (resolveDefaults options DEFAULTS_EDGE) "edgeCentralityAttribute") in
  ∃ graph',
    edgeBetweennessCentrality_assign lib (AGraph graph) options
    = (AGraph graph', Ok None) ∧
    nodes graph' = nodes graph ∧ edges graph' = edges graph ∧
    node_attributes graph' = node_attributes graph ∧
    (∀ e, e ∈ edges graph → e ≠ "__proto__" → is_Some (mapping !! e)) ∧
    (∀ e a, e ∈ edges graph →
       attribute_of (edge_attributes graph') e a
       = if decide (a = name ∧ name ≠ "__proto__")
         then Some (if decide (e = "__proto__") then AObjectPrototype
                    else match mapping !! e with
                         | Some x => ANumber x
                         | None => AUndefined
                         end)
         else attribute_of (edge_attributes graph) e a) ∧
    (∀ e, e ∉ edges graph →
       edge_attributes graph' !! e = edge_attributes graph !! e).
Proof.
  unfold edgeBetweennessCentrality, edgeBetweennessCentrality_assign,
    abstractEdgeBetweennessCentrality. simpl.
  generalize (resolveDefaults options DEFAULTS_EDGE) as resolved.
  intros resolved.
  destruct (edge_centralities lib graph resolved) as [totals|e0] eqn:Hc;
    [|done].
  intros Hcollect. assert (totals = mapping) as -> by congruence.
  eexists. split; [reflexivity|]. simpl.
  split; [done|]. split; [done|]. split; [done|].
  assert (Hlookup : ∀ e,
            forEachEdge graph
              (λ e store,
                 <[e := Obj.set (default ∅ (store !! e))
                          (to_property_key
                             (prop resolved "edgeCentralityAttribute"))
                          (Obj.read mapping e)]> store)
              (edge_attributes graph) !! e
            = if decide (e ∈ edges graph)
              then Some (Obj.set (default ∅ (edge_attributes graph !! e))
                           (to_property_key
                              (prop resolved "edgeCentralityAttribute"))
                           (Obj.read mapping e))
              else edge_attributes graph !! e).
  { intros e. unfold forEachEdge.
    apply (update_each_lookup
             (λ e attr, Obj.set attr
                          (to_property_key
                             (prop resolved "edgeCentralityAttribute"))
                          (Obj.read mapping e))).
    intros e' x. apply set_set. }
  split; [|split].
  - intros e He Hp. revert Hc. unfold edge_centralities, mbind, result_bind.
    destruct (edge_totals lib graph resolved) as [totals|] eqn:Ht; [|done].
    intros [= <-]. by eapply edge_rescale_present, edge_totals_present.
  - intros e a He. unfold attribute_of. rewrite Hlookup.
    rewrite decide_True by done. simpl. rewrite set_lookup.
    case_decide; [|by destruct (edge_attributes graph !! e)].
    unfold Obj.read, of_number. by case_decide.
  - intros e He. rewrite Hlookup. by rewrite decide_False.
Qed.

Lemma X10_edge_assign_stores_mapping_witness :
  let lib := Example.lib_of Example.directed_path_brandes in
  let graph := Example.directed_path in
  let options := Some (<["normalized" := VBool false]> ∅) in
  let mapping : gmap string float :=
    <["AB" := 2%float]> (<["BC" := 2%float]> ∅) in
  edgeBetweennessCentrality lib (AGraph graph) options
  = (AGraph graph, Ok (Some mapping)) ∧
  ∃ graph',
    edgeBetweennessCentrality_assign lib (AGraph graph) options
    = (AGraph graph', Ok None) ∧
    attribute_of (edge_attributes graph') "AB" "edgeBetweennessCentrality"
    = Some (ANumber 2%float) ∧
    attribute_of (edge_attributes graph') "AB" "weight" = None.
Proof.
  intros lib graph options mapping.
  assert (H1 : edgeBetweennessCentrality lib (AGraph graph) options
               = (AGraph graph, Ok (Some mapping)))
    by (vm_compute; reflexivity).
  split; [exact H1|].
  destruct (X10_edge_assign_stores_mapping lib graph options mapping H1)
    as (graph' & Hassign & _ & _ & _ & _ & Hstored & _).
  exists graph'. split; [exact Hassign|].
  assert (HAB : "AB" ∈ edges graph)
    by (apply (bool_decide_unpack _); vm_compute; exact I).
  split.
  - rewrite (Hstored "AB" "edgeBetweennessCentrality" HAB).
    vm_compute. reflexivity.
  - rewrite (Hstored "AB" "weight" HAB). vm_compute. reflexivity.
Defined.

(* ================================================================== *)
(** * Beyond the claims: the entries of the edges, and zero             *)
(* ================================================================== *)

Lemma check_from_sound lo count :
  check_from lo count = true →
  ∀ n, (lo ≤ n < lo + count)%N → rescaled_zero n = 0%float.
Proof.
  unfold check_from.
  assert (Hnext : ∀ c s, (N.iter c check_step s).1 = (s.1 + c)%N).
  { intros c s. induction c as [|c IHc] using N.peano_ind; simpl; [lia|].
    rewrite N.iter_succ. simpl. rewrite IHc. lia. }
  induction count as [|count IH] using N.peano_ind; intros Hall n Hn; [lia|].
  rewrite N.iter_succ in Hall.
  unfold check_step at 1 in Hall. simpl in Hall.
  apply andb_prop in Hall as [Hbefore Hlast].
  destruct (decide (n = lo + count)%N) as [->|Hne].
  - rewrite Hnext in Hlast. simpl in Hlast.
    by apply FloatAxioms.Leibniz.eqb_spec.
  - apply IH; [done | lia].
Qed.

(** Every order from 2 to 2^20 keeps zero at zero. *)
Lemma rescaled_zero_checked : check_from 2 1048575 = true.
Proof. vm_compute. reflexivity. Qed.

(** The rescaling of the edge totals maps zero to zero: always when
    [normalized] is falsy, and for every graph of up to 2^20 nodes when it is
    truthy. *)
Lemma edge_scaling_zero normalized N ty :
  normalized = false ∨ (N.of_nat N ≤ 1048576)%N →
  Spec.edge_scaling normalized N ty 0 = 0%float.
Proof.
  unfold Spec.edge_scaling. intros Hcase.
  destruct normalized; [|by case_decide].
  destruct Hcase as [?|HN]; [done|].
  case_decide as Hlarge; [|done].
  unfold number_of_nat. rewrite <- nat_N_Z.
  apply (check_from_sound 2 1048575 rescaled_zero_checked). lia.
Qed.

(** X11.  The entries of the edges.  (1) Whenever the collect variant of the
    edge function returns a mapping, every edge of the graph other than
    [__proto__] has an entry in it, and [__proto__] has none.  (2) When the
    round of every source completes (its traversal is well formed and its
    lookups return) and the graph enumerates each edge once, the function
    does return a mapping, and an edge other than [__proto__] that no source
    credits has total [0.0] after the last source and, as its entry, that
    zero rescaled like every other total: [0.0] itself when [normalized] is
    falsy and, when it is truthy, for every graph of up to 2^20 nodes (by
    evaluation of [0.0 * (1 / (N(N-1)))] at each order). *)
Theorem X11_edge_entries (lib : IndexedBrandes) (graph : Graph)
    (options : option (gmap string value)) :
  let resolved := resolveDefaults options DEFAULTS_EDGE in
  let normalized := truthy (prop resolved "normalized") in
  let N := order graph in
  (∀ mapping,
     (edgeBetweennessCentrality lib (AGraph graph) options).2
     = Ok (Some mapping) →
     mapping !! "__proto__" = None ∧
     ∀ e, e ∈ edges graph → e ≠ "__proto__" → is_Some (mapping !! e)) ∧
  (∀ brandes,
     create lib graph (strategy resolved) = Ok brandes →
     indexer_answers (edge_round_wf graph (index_nodes brandes)) N brandes →
     NoDup (edges graph) →
     ∃ totals mapping,
       edge_totals lib graph resolved = Ok totals ∧
       edgeBetweennessCentrality lib (AGraph graph) options
       = (AGraph graph, Ok (Some mapping)) ∧
       ∀ e, e ∈ edges graph → e ≠ "__proto__" →
         never_credited graph brandes N e →
         totals !! e = Some 0%float ∧
         mapping !! e = Some (Spec.edge_scaling normalized N (type graph) 0) ∧
         (normalized = false ∨ (N.of_nat N ≤ 1048576)%N →
          mapping !! e = Some 0%float)).
Proof.
  intros resolved normalized N. split.
  - intros mapping. unfold edgeBetweennessCentrality,
      abstractEdgeBetweennessCentrality. simpl. fold resolved.
    unfold edge_centralities, mbind, result_bind.
    destruct (edge_totals lib graph resolved) as [totals|] eqn:Htotals;
      simpl; [|done].
    generalize (edge_scale (prop resolved "normalized") (order graph)
                  (type graph)) as scale.
    intros scale Hmapping.
    assert (mapping = edge_rescale graph scale totals) as -> by congruence.
    split.
    + by eapply edge_rescale_proto, edge_totals_proto.
    + intros e He Hp. by eapply edge_rescale_present, edge_totals_present.
  - intros brandes Hcreate Hwf Hnodup.
    assert (Hloop : ∃ state,
              edge_sources N 0 graph brandes
                (Float64Array.make N, edge_init graph) = Ok state ∧
              ∀ e, never_credited graph brandes N e →
                   state.2 !! e = edge_init graph !! e).
    { destruct (edge_sources_returns N 0 graph brandes
                  (Float64Array.make N, edge_init graph) EmptyString Hwf)
        as (state & Hs & _).
      exists state. split; [done|]. intros e He.
      destruct (edge_sources_returns N 0 graph brandes
                  (Float64Array.make N, edge_init graph) e Hwf)
        as (state2 & Hs2 & Hkeep).
      rewrite Hs in Hs2. injection Hs2 as <-. by apply Hkeep. }
    destruct Hloop as (state & Hstate & Hkeep).
    assert (Htotals : edge_totals lib graph resolved = Ok state.2).
    { unfold edge_totals, mbind, result_bind. rewrite Hcreate.
      fold N. by rewrite Hstate. }
    pose proof (λ e, edge_totals_present lib graph resolved state.2 e Htotals)
      as Hpresent.
    pose proof (edge_totals_proto lib graph resolved state.2 Htotals)
      as Hproto.
    exists state.2,
      (Spec.on_edges graph (Spec.edge_scaling normalized N (type graph))
         state.2).
    split; [done|]. split.
    + unfold edgeBetweennessCentrality, abstractEdgeBetweennessCentrality.
      simpl. fold resolved. unfold edge_centralities, mbind, result_bind.
      rewrite Htotals. by rewrite edge_rescale_on_edges.
    + intros e He Hp Hnever.
      unfold Spec.on_edges. rewrite map_lookup_imap.
      rewrite (Hkeep e Hnever), edge_init_lookup by done. simpl.
      rewrite decide_True by done.
      split; [done|]. split; [done|].
      intros Hzero. by rewrite edge_scaling_zero.
Qed.

Lemma X11_edge_entries_witness :
  let graph := Example.looped_path in
  let brandes := Example.directed_path_brandes in
  let lib := Example.lib_of brandes in
  (create lib graph (strategy (resolveDefaults None DEFAULTS_EDGE)) = Ok brandes ∧
   indexer_answers (edge_round_wf graph (index_nodes brandes)) (order graph)
     brandes ∧
   NoDup (edges graph) ∧
   "CC" ∈ edges graph ∧ "CC" ≠ "__proto__" ∧
   never_credited graph brandes (order graph) "CC") ∧
  ∃ totals mapping,
    edge_totals lib graph (resolveDefaults None DEFAULTS_EDGE) = Ok totals ∧
    edgeBetweennessCentrality lib (AGraph graph) None
    = (AGraph graph, Ok (Some mapping)) ∧
    is_Some (mapping !! "AB") ∧
    totals !! "CC" = Some 0%float ∧
    mapping !! "CC" = Some 0%float.
Proof.
  intros graph brandes lib.
  assert (H1 : create lib graph (strategy (resolveDefaults None DEFAULTS_EDGE))
               = Ok brandes) by (vm_compute; reflexivity).
  assert (H2 : indexer_answers (edge_round_wf graph (index_nodes brandes))
                 (order graph) brandes)
    by (apply (bool_decide_unpack _); vm_compute; exact I).
  assert (H3 : NoDup (edges graph))
    by (apply (bool_decide_unpack _); vm_compute; exact I).
  assert (H4 : never_credited graph brandes (order graph) "CC")
    by (apply (bool_decide_unpack _); vm_compute; exact I).
  assert (HAB : "AB" ∈ edges graph)
    by (apply (bool_decide_unpack _); vm_compute; exact I).
  assert (HCC : "CC" ∈ edges graph)
    by (apply (bool_decide_unpack _); vm_compute; exact I).
  assert (HABp : "AB" ≠ "__proto__") by discriminate.
  assert (HCCp : "CC" ≠ "__proto__") by discriminate.
  assert (Hsmall : (N.of_nat (order graph) ≤ 1048576)%N)
    by (vm_compute; discriminate).
  split; [exact (conj H1 (conj H2 (conj H3 (conj HCC (conj HCCp H4)))))|].
  destruct (X11_edge_entries lib graph None) as (Hpresent & Hreturns).
  destruct (Hreturns brandes H1 H2 H3)
    as (totals & mapping & Htotals & Hmapping & Hedges).
  exists totals, mapping.
  split; [exact Htotals|]. split; [exact Hmapping|].
  split.
  - refine (proj2 (Hpresent mapping _) "AB" HAB HABp). by rewrite Hmapping.
  - destruct (Hedges "CC" HCC HCCp H4) as (Hzero & _ & Hscaled).
    split; [exact Hzero | exact (Hscaled (or_intror Hsmall))].
Defined.

(* ================================================================== *)
(** * Beyond the claims: multigraphs                                    *)
(* ================================================================== *)

Lemma multi_body graph names sigma c w v state :
  multi graph = true →
  edge_body graph names sigma c w v state = Throw UsageGraphError.
Proof. intros Hmulti. unfold edge_body, edge. by rewrite Hmulti. Qed.

(** On a multigraph a round goes wrong at its first predecessor link, and
    changes nothing when it has none. *)
Lemma multi_accumulate n items P sigma graph names state :
  multi graph = true →
  n ≤ length items →
  Forall (λ w, w < length P) (take n items) →
  edge_accumulate n items P sigma graph names state
  = if decide (Exists (λ w, default [] (P !! w) ≠ []) (take n items))
    then Throw UsageGraphError
    else Ok state.
Proof.
  intros Hmulti. induction n as [|n IH]; intros Hn Hall; simpl; [done|].
  - destruct (lookup_lt_is_Some_2 items n) as [w Hw]; [lia|].
    rewrite (take_S_r _ _ _ Hw) in Hall |- *.
    rewrite Forall_app, Forall_singleton in Hall.
    destruct Hall as [Hall Hlast].
    destruct (lookup_lt_is_Some_2 P w) as [Pw HPw]; [done|].
    rewrite Hw, HPw. destruct Pw as [|v Pw]; simpl.
    + rewrite IH by (done || lia).
      destruct (decide (Exists _ (take n items))) as [Hex|Hex].
      * rewrite decide_True; [done|]. apply Exists_app. by left.
      * rewrite decide_False; [done|].
        intros [?|Hlink%Exists_cons]%Exists_app; [done|].
        destruct Hlink as [Hlink|Hlink%Exists_nil]; [|done].
        by rewrite HPw in Hlink.
    + rewrite multi_body by done. simpl.
      rewrite decide_True; [done|]. apply Exists_app. right.
      apply Exists_cons. left. by rewrite HPw.
Qed.

Lemma multi_sources n k graph brandes state :
  multi graph = true →
  Forall (λ i, match run brandes i with
               | Ok t => traversal_wf t
               | Throw _ => False
               end) (seq k n) →
  Exists (λ i, match run brandes i with
               | Ok t => has_link t
               | Throw _ => False
               end) (seq k n) →
  edge_sources n k graph brandes state = Throw UsageGraphError.
Proof.
  intros Hmulti. revert k state.
  induction n as [|n IH]; intros k state Hwf Hlink; simpl in *.
  - by apply Exists_nil in Hlink.
  - apply Forall_cons in Hwf as [Hk Hwf].
    unfold edge_source, mbind, result_bind at 1.
    destruct (run brandes k) as [t|] eqn:Ht; [|done].
    destruct Hk as [Hsize Hnodes]. simpl.
    rewrite multi_accumulate by done.
    apply Exists_cons in Hlink as [Hlink|Hlink].
    + rewrite Ht in Hlink. unfold has_link in Hlink. by rewrite decide_True.
    + case_decide; [done|]. by apply IH.
Qed.

(** X12.  The edge function does not serve multigraphs.  On a multigraph,
    when the indexer answers every source with a well-formed traversal and
    some node of some traversal has a predecessor, [graph.edge] throws at the
    first predecessor link: both variants of the edge function throw a
    [UsageGraphError] and leave the graph as it was. *)
Theorem X12_multigraph_throws (lib : IndexedBrandes) (assign : bool)
    (graph : Graph) (options : option (gmap string value))
    (brandes : Indexer) :
  multi graph = true →
  create lib graph (strategy (resolveDefaults options DEFAULTS_EDGE))
  = Ok brandes →
  indexer_answers (λ _, traversal_wf) (order graph) brandes →
  Exists (λ i, match run brandes i with
               | Ok t => has_link t
               | Throw _ => False
               end) (seq 0 (order graph)) →
  abstractEdgeBetweennessCentrality lib assign (AGraph graph) options
  = (AGraph graph, Throw UsageGraphError).
Proof.
  intros Hmulti Hcreate Hwf Hlink.
  unfold abstractEdgeBetweennessCentrality. simpl.
  unfold edge_centralities, edge_totals, mbind, result_bind.
  rewrite Hcreate.
  by rewrite (multi_sources _ 0 graph brandes _ Hmulti Hwf Hlink).
Qed.

Lemma X12_multigraph_throws_witness :
  let graph := Example.as_multi Example.undirected_path in
  let brandes := Example.undirected_path_brandes in
  let lib := Example.lib_of brandes in
  (multi graph = true ∧
   create lib graph (strategy (resolveDefaults None DEFAULTS_EDGE)) = Ok brandes ∧
   indexer_answers (λ _, traversal_wf) (order graph) brandes ∧
   Exists (λ i, match run brandes i with
                | Ok t => has_link t
                | Throw _ => False
                end) (seq 0 (order graph))) ∧
  edgeBetweennessCentrality lib (AGraph graph) None
  = (AGraph graph, Throw UsageGraphError) ∧
  edgeBetweennessCentrality_assign lib (AGraph graph) None
  = (AGraph graph, Throw UsageGraphError).
Proof.
  intros graph brandes lib.
  assert (H1 : multi graph = true) by reflexivity.
  assert (H2 : create lib graph (strategy (resolveDefaults None DEFAULTS_EDGE))
               = Ok brandes) by (vm_compute; reflexivity).
  assert (H3 : indexer_answers (λ _, traversal_wf) (order graph) brandes)
    by (apply (bool_decide_unpack _); vm_compute; exact I).
  assert (H4 : Exists (λ i, match run brandes i with
                            | Ok t => has_link t
                            | Throw _ => False
                            end) (seq 0 (order graph))).
  { apply Exists_cons. left. simpl.
    apply (bool_decide_unpack _). vm_compute. exact I. }
  split; [exact (conj H1 (conj H2 (conj H3 H4)))|].
  split.
  - exact (X12_multigraph_throws lib false graph None brandes H1 H2 H3 H4).
  - exact (X12_multigraph_throws lib true graph None brandes H1 H2 H3 H4).
Defined.
